(** * Fast TZYX sequencing notebook: the triangle z waveform and its events

    A shallow embedding of
    [docs/source/application_notebooks/TZYX_fast_sequencing_z_indexing.ipynb]:
    the function [upload_piezo_sequence], the parameter cell, the cell that
    builds the acquisition events and the reset cell, with the properties
    the notebook's description states about them. *)

From Stdlib Require Import PrimFloat.
From Stdlib Require FloatOps SpecFloat.
From Stdlib Require Import ZArith QArith Qround Qabs Lqa Lia.
From stdpp Require Import base option list gmap strings.

Local Open Scope Z_scope.

(** ** Numbers

    The notebook computes on Python floats and NumPy [float64] arrays. The
    code is written once over the operations it uses. It runs on IEEE
    binary64 (the kernel's primitive floats); exact rationals give the
    numbers a run would have without rounding, and a binary64 run is
    compared with them where a statement needs that. *)

Class Scalar (A : Type) := {
  of_int : Z → A;               (* int -> float, as in [i * delta] and [x + 1] *)
  fadd : A → A → A;
  fsub : A → A → A;
  fmul : A → A → A;
  fdiv : A → A → A;
  fopp : A → A;
  fabs : A → A;
  is_zero : A → bool;           (* the divisor test behind ZeroDivisionError *)
  ceil : A → option Z;          (* ceiling as an integer; [None]: nan or inf *)
  trunc : A → option Z;         (* Python's [int(x)]; [None]: nan or inf *)
  int_div : Z → Z → option A;   (* Python's [a / b] on ints; [None]: it raises *)
  fceil : A → A;                (* [np.ceil] *)
  astype_int : A → Z;           (* [.astype(np.int)] *)
}.

(** [np.int] is the platform's C [long], 64 bits wide; a value outside its
    range, an infinity or a nan casts to the smallest one. *)
Definition int64_min : Z := - 2 ^ 63.
Definition cast_int64 (z : Z) : Z :=
  if (int64_min <=? z) && (z <? 2 ^ 63) then z else int64_min.

(** [int(x)] rounds toward zero. *)
Definition Qtrunc (q : Q) : Z :=
  if Qle_bool 0 q then Qfloor q else Qceiling q.

#[export] Instance Q_scalar : Scalar Q := {|
  of_int := inject_Z;
  fadd := Qplus;
  fsub := Qminus;
  fmul := Qmult;
  fdiv := Qdiv;
  fopp := Qopp;
  fabs := Qabs;
  is_zero q := Qeq_bool q 0;
  ceil q := Some (Qceiling q);
  trunc q := Some (Qtrunc q);
  int_div a b := if b =? 0 then None else Some (inject_Z a / inject_Z b)%Q;
  fceil q := inject_Z (Qceiling q);
  astype_int q := cast_int64 (Qtrunc q);
|}.

(** The rational a finite binary64 number denotes, in lowest terms. *)
Definition F64toQ (f : PrimFloat.float) : option Q :=
  match FloatOps.Prim2SF f with
  | SpecFloat.S754_zero _ => Some 0%Q
  | SpecFloat.S754_finite s m e =>
      let mz := if s then Z.neg m else Z.pos m in
      Some (Qred (if 0 <=? e then inject_Z (mz * 2 ^ e)
                  else Qmake mz (2 ^ Z.to_pos (- e))))
  | _ => None
  end.

(** The binary64 number nearest to an integer (ties to even). *)
Definition F64_of_int (z : Z) : PrimFloat.float :=
  FloatOps.SF2Prim
    (SpecFloat.binary_normalize FloatOps.prec FloatOps.emax z 0 false).

(** Python's [a / b] on two ints: ZeroDivisionError on a zero divisor,
    else the exact quotient rounded once to binary64 (ties to even), and
    OverflowError when that is out of range. The quotient is taken to 56
    bits or more with a sticky last bit, then rounded; a zero quotient has
    the sign of the divisor. *)
Definition F64_int_div (a b : Z) : option PrimFloat.float :=
  if b =? 0 then None
  else
    let k := Z.max 0 (Z.log2 (Z.abs b) - Z.log2 (Z.abs a) + 56) in
    let n := Z.abs a * 2 ^ k in
    let sticky := if n `mod` Z.abs b =? 0 then 0 else 1 in
    let m := 2 * (n `div` Z.abs b) + sticky in
    let f := FloatOps.SF2Prim
               (SpecFloat.binary_normalize FloatOps.prec FloatOps.emax
                  (Z.sgn a * Z.sgn b * m) (- k - 1) (b <? 0)) in
    if PrimFloat.is_infinity f then None else Some f.

(** [np.ceil] on binary64: zeros, infinities and nan are kept, and a
    negative number above -1 gives the negative zero. *)
Definition F64_ceil (f : PrimFloat.float) : PrimFloat.float :=
  match F64toQ f with
  | Some q =>
      if PrimFloat.is_zero f then f
      else if (Qceiling q =? 0) && negb (Qle_bool 0 q) then PrimFloat.neg_zero
      else F64_of_int (Qceiling q)
  | None => f
  end.

#[export] Instance F64_scalar : Scalar PrimFloat.float := {|
  of_int := F64_of_int;
  fadd := PrimFloat.add;
  fsub := PrimFloat.sub;
  fmul := PrimFloat.mul;
  fdiv := PrimFloat.div;
  fopp := PrimFloat.opp;
  fabs := PrimFloat.abs;
  is_zero := PrimFloat.is_zero;
  ceil f := Qceiling <$> F64toQ f;
  trunc f := Qtrunc <$> F64toQ f;
  int_div := F64_int_div;
  fceil := F64_ceil;
  astype_int f :=
    match F64toQ f with
    | Some q => cast_int64 (Qtrunc q)
    | None => int64_min
    end;
|}.

(** [range(n)] *)
Definition range (n : Z) : list Z := seqZ 0 n.

(** ** NumPy *)

Section numpy.
Context {A : Type} `{Scalar A}.

(** Item [i] of [np.arange(start, _, step)]: the first item is [start], the
    second [start + step], and from there on item [i] is [start + i * delta]
    for [delta] the difference of the first two. *)
Definition arange_item (start step : A) (i : Z) : A :=
  let next := fadd start step in
  let delta := fsub next start in
  if i =? 0 then start
  else if i =? 1 then next
  else fadd start (fmul (of_int i) delta).

(** [np.arange(start, stop, step)] on floats: [ceil((stop - start) / step)]
    items, none when that is not positive. A zero step raises, and so does a
    length that is nan or infinite. *)
Definition arange (start stop step : A) : option (list A) :=
  if is_zero step then None
  else
    len ← ceil (fdiv (fsub stop start) step);
    Some (arange_item start step <$> range len).

(** [np.hstack((a, b))] of two one-dimensional arrays. *)
Definition hstack (a b : list A) : list A := a ++ b.
End numpy.

(** ** State and errors

    A computation reads and updates a state and may raise; [None] stands for
    an uncaught Python exception, which ends the run. *)

Definition M (S X : Type) : Type := S → option (X * S).

#[export] Instance M_ret {S} : MRet (M S) := λ X x s, Some (x, s).
#[export] Instance M_bind {S} : MBind (M S) :=
  λ X Y f m s, match m s with Some (x, s') => f x s' | None => None end.

(** An optional value, raising when it is absent. *)
Definition lift {S X} (o : option X) : M S X := λ s, (., s) <$> o.

(** A [for] loop threading an accumulator through the items in order. *)
Fixpoint for_each {S X Y} (body : Y → X → M S Y) (xs : list X) (acc : Y)
  : M S Y :=
  match xs with
  | [] => mret acc
  | x :: xs' => acc' ← body acc x; for_each body xs' acc'
  end.

(** ** The microscope core *)

(** A device property value: the notebook sets strings and one integer. *)
Inductive pval := PStr (s : string) | PInt (n : Z).

#[export] Instance pval_eq_dec : EqDecision pval.
Proof. solve_decision. Defined.

Inductive call (A : Type) :=
| GetFocusDevice (ret : string)
| GetPosition (dev : string) (ret : A)
| SetPosition (dev : string) (pos : A)
| SetProperty (dev name : string) (val : pval)
| LoadStageSequence (dev : string) (positions : list A)
| SetExposure (ms : Z)
| SetRoi (x y w h : Z).
Arguments GetFocusDevice {A}.
Arguments GetPosition {A}.
Arguments SetPosition {A}.
Arguments SetProperty {A}.
Arguments LoadStageSequence {A}.
Arguments SetExposure {A}.
Arguments SetRoi {A}.

(** Modelled from the spec: the core object [mmc] of the hardware bridge
    ([bridge.get_core()]), which this notebook only calls. It drives one
    focus stage, the device [get_focus_device] names: [get_position] reports
    where that stage is, [set_position] moves it there, [set_property] and
    [load_stage_sequence] store what they are given. Every call is recorded
    in [calls], oldest first. *)
Record core (A : Type) := Core {
  focus_device : string;
  stage_position : A;
  properties : gmap (string * string) pval;
  stage_sequence : list A;
  exposure : Z;
  roi : Z * Z * Z * Z;
  calls : list (call A);
}.
Arguments Core {A}.
Arguments focus_device {A}.
Arguments stage_position {A}.
Arguments properties {A}.
Arguments stage_sequence {A}.
Arguments exposure {A}.
Arguments roi {A}.
Arguments calls {A}.

Section mmc.
Context {A : Type}.

Definition record (k : call A) (c : core A) : core A :=
  Core (focus_device c) (stage_position c) (properties c)
       (stage_sequence c) (exposure c) (roi c) (calls c ++ [k]).

Definition get_focus_device : M (core A) string :=
  λ c, Some (focus_device c, record (GetFocusDevice (focus_device c)) c).

Definition get_position (dev : string) : M (core A) A :=
  λ c, Some (stage_position c, record (GetPosition dev (stage_position c)) c).

Definition set_position (dev : string) (pos : A) : M (core A) unit :=
  λ c, Some (tt, record (SetPosition dev pos)
                   (Core (focus_device c) pos (properties c)
                         (stage_sequence c) (exposure c) (roi c) (calls c))).

Definition set_property (dev name : string) (val : pval) : M (core A) unit :=
  λ c, Some (tt, record (SetProperty dev name val)
                   (Core (focus_device c) (stage_position c)
                         (<[(dev, name) := val]> (properties c))
                         (stage_sequence c) (exposure c) (roi c) (calls c))).

Definition load_stage_sequence (dev : string) (positions : list A)
  : M (core A) unit :=
  λ c, Some (tt, record (LoadStageSequence dev positions)
                   (Core (focus_device c) (stage_position c) (properties c)
                         positions (exposure c) (roi c) (calls c))).

Definition set_exposure (ms : Z) : M (core A) unit :=
  λ c, Some (tt, record (SetExposure ms)
                   (Core (focus_device c) (stage_position c) (properties c)
                         (stage_sequence c) ms (roi c) (calls c))).

Definition set_roi (x y w h : Z) : M (core A) unit :=
  λ c, Some (tt, record (SetRoi x y w h)
                   (Core (focus_device c) (stage_position c) (properties c)
                         (stage_sequence c) (exposure c) (x, y, w, h)
                         (calls c))).

(** Whether a call asks the stage where it is. *)
Definition is_position_query (k : call A) : bool :=
  match k with GetPosition _ _ => true | _ => false end.
End mmc.

(** ** The function [upload_piezo_sequence] *)

Section upload.
Context {A : Type} `{Scalar A}.

(** The two [np.arange] runs stacked: [pos_sequence] before any offset. *)
Definition triangle (start_end_pos mid_pos step_size : A) : option (list A) :=
  up ← arange start_end_pos (fadd mid_pos step_size) step_size;
  down ← arange mid_pos (fsub start_end_pos step_size) (fopp step_size);
  Some (hstack up down).

(** Returns [(z_pos, pos_sequence)]. The Java [DoubleVector] is filled one
    [add] at a time from the array. *)
Definition upload_piezo_sequence
    (start_end_pos mid_pos step_size : A) (relative : bool)
  : M (core A) (A * list A) :=
  z_stage ← get_focus_device;
  pos_sequence ← lift (triangle start_end_pos mid_pos step_size);
  let z_pos := of_int 0 in
  '(z_pos, pos_sequence) ←
    (if relative then
       z_pos ← get_position z_stage;
       mret (z_pos, (λ p, fadd p z_pos) <$> pos_sequence)
     else mret (z_pos, pos_sequence));
  let positionJ := foldl (λ v i, v ++ [i]) [] pos_sequence in
  _ ← set_property z_stage "UseSequence" (PStr "Yes");
  _ ← set_property z_stage "UseFastSequence" (PStr "No");
  _ ← load_stage_sequence z_stage positionJ;
  _ ← set_property z_stage "UseFastSequence" (PStr "Armed");
  mret (z_pos, pos_sequence).

(** The offset and the sequence [upload_piezo_sequence] returns. *)
Definition offset_of (relative : bool) (c : core A) : A :=
  if relative then stage_position c else of_int 0.
Definition shifted (relative : bool) (c : core A) (seq : list A) : list A :=
  if relative then (λ p, fadd p (stage_position c)) <$> seq else seq.

(** The calls one upload makes, in order. *)
Definition upload_calls (relative : bool) (c : core A) (seq : list A)
  : list (call A) :=
  let dev := focus_device c in
  [GetFocusDevice dev]
  ++ (if relative then [GetPosition dev (stage_position c)] else [])
  ++ [SetProperty dev "UseSequence" (PStr "Yes");
      SetProperty dev "UseFastSequence" (PStr "No");
      LoadStageSequence dev (shifted relative c seq);
      SetProperty dev "UseFastSequence" (PStr "Armed")].

(** The core an upload leaves: the stage where it was, the sequence
    loaded, fast sequencing armed. *)
Definition uploaded (relative : bool) (c : core A) (seq : list A) : core A :=
  let dev := focus_device c in
  Core dev (stage_position c)
    (<[(dev, "UseFastSequence") := PStr "Armed"]>
       (<[(dev, "UseFastSequence") := PStr "No"]>
          (<[(dev, "UseSequence") := PStr "Yes"]> (properties c))))
    (shifted relative c seq) (exposure c) (roi c)
    (calls c ++ upload_calls relative c seq).
End upload.

(** ** Python list objects

    [z_idx] and [z_idx_] are names of list objects; [reverse] updates the
    object in place, so what a name reads depends on which object it is
    bound to. *)

Abbreviation loc := positive (only parsing).
Abbreviation heap := (gmap loc (list Z)) (only parsing).

Definition new_list (items : list Z) : M heap loc :=
  λ h, let r := fresh (dom h) in Some (r, <[r := items]> h).

(** [l.copy()]: a new object with the same items. *)
Definition list_copy (r : loc) : M heap loc :=
  λ h, items ← h !! r; new_list items h.

(** [l.reverse()]: the same object, its items in reverse order. *)
Definition list_reverse (r : loc) : M heap unit :=
  λ h, items ← h !! r; Some (tt, <[r := reverse items]> h).

(** The items a [for j in l] loop visits, when the body leaves [l] alone. *)
Definition list_items (r : loc) : M heap (list Z) :=
  λ h, items ← h !! r; Some (items, h).

(** ** Acquisition events *)

(** The dict [{"axes": {"time": i, "z": j}}]. *)
Record event := Event { time : Z; z : Z }.

#[export] Instance event_eq_dec : EqDecision event.
Proof. solve_decision. Defined.

(** One time point: an event per item of [z_idx_], then [z_idx_.reverse()]. *)
Definition time_point (z_idx_ : loc) (events : list event) (i : Z)
  : M heap (list event) :=
  js ← list_items z_idx_;
  let events := foldl (λ ev j, ev ++ [Event i j]) events js in
  _ ← list_reverse z_idx_;
  mret events.

(** The cell "Generate events"; returns [(events, z_idx_)]. *)
Definition generate_events (z_idx : loc) (num_time_points : Z)
  : M heap (list event * loc) :=
  let events := [] in
  z_idx_ ← list_copy z_idx;
  events ← for_each (time_point z_idx_) (range num_time_points) events;
  mret (events, z_idx_).

(** ** The notebook *)

Record params (A : Type) := Params {
  path : string;
  name : string;
  start_end_pos : A;
  mid_pos : A;
  step_size : A;
  relative : bool;
  duration : Z;
  exposure_time : Z;
  framerate : Z;
  ROI : Z * Z * Z * Z;
}.
Arguments Params {A}.
Arguments path {A}.
Arguments name {A}.
Arguments start_end_pos {A}.
Arguments mid_pos {A}.
Arguments step_size {A}.
Arguments relative {A}.
Arguments duration {A}.
Arguments exposure_time {A}.
Arguments framerate {A}.
Arguments ROI {A}.

(** The names bound when the notebook has run, with the core and the heap
    it leaves. [num_z_positions] is bound twice: by the parameter cell
    ([num_z_positions0], which [z_idx] and [num_time_points] are computed
    from) and again after the upload. *)
Record bindings (A : Type) := Bindings {
  num_z_positions0 : Z;
  z_idx : loc;
  num_time_points : Z;
  z_stage : string;
  z_pos : A;
  pos_sequence : list A;
  num_z_positions : Z;
  events : list event;
  z_idx_ : loc;
}.
Arguments Bindings {A}.
Arguments num_z_positions0 {A}.
Arguments z_idx {A}.
Arguments num_time_points {A}.
Arguments z_stage {A}.
Arguments z_pos {A}.
Arguments pos_sequence {A}.
Arguments num_z_positions {A}.
Arguments events {A}.
Arguments z_idx_ {A}.

Section notebook.
Context {A : Type} `{Scalar A}.

Definition world : Type := core A * heap.

Definition on_core {X} (m : M (core A) X) : M world X :=
  λ w, '(x, c) ← m w.1; Some (x, (c, w.2)).
Definition on_heap {X} (m : M heap X) : M world X :=
  λ w, '(x, h) ← m w.2; Some (x, (w.1, h)).

(** [int(abs(mid_pos - start_end_pos) / step_size + 1)] *)
Definition count_z_positions (start_end_pos mid_pos step_size : A)
  : option Z :=
  if is_zero step_size then None
  else trunc (fadd (fdiv (fabs (fsub mid_pos start_end_pos)) step_size)
                   (of_int 1)).

(** [np.ceil(duration * framerate / num_z_positions).astype(np.int)]: the
    product and the division are Python's, on ints. *)
Definition count_time_points (duration framerate num_z_positions : Z)
  : option Z :=
  q ← int_div (duration * framerate) num_z_positions;
  Some (astype_int (fceil q)).

(** Modelled from the spec: the acquisition engine
    ([Acquisition(...).acquire(events)]), which drives the hardware over
    the events; whatever it does to the core is a parameter here. *)
Variable acquire : list event → M (core A) unit.

Definition notebook (p : params A) : M world (bindings A) :=
  (* Set acquisition parameters *)
  num_z_positions0 ←
    lift (count_z_positions (start_end_pos p) (mid_pos p) (step_size p));
  z_idx ← on_heap (new_list (range num_z_positions0));
  num_time_points ←
    lift (count_time_points (duration p) (framerate p) num_z_positions0);
  (* Prepare for acquisition *)
  _ ← on_core (set_exposure (exposure_time p));
  _ ← on_core (let '(x, y, w, h) := ROI p in set_roi x y w h);
  _ ← on_core (set_property "Camera" "Framerate" (PInt (framerate p)));
  z_stage ← on_core get_focus_device;
  '(z_pos, pos_sequence) ←
    on_core (upload_piezo_sequence (start_end_pos p) (mid_pos p)
               (step_size p) (relative p));
  let num_z_positions := Z.of_nat (length pos_sequence) in
  first ← lift (pos_sequence !! 0%nat);
  _ ← on_core (set_position z_stage first);
  (* Generate events *)
  '(events, z_idx_) ← on_heap (generate_events z_idx num_time_points);
  (* Acquire data *)
  _ ← on_core (acquire events);
  (* Reset *)
  _ ← on_core (set_property z_stage "UseFastSequence" (PStr "No"));
  _ ← on_core (set_property z_stage "UseSequence" (PStr "No"));
  _ ← on_core (set_position z_stage z_pos);
  mret (Bindings num_z_positions0 z_idx num_time_points z_stage z_pos
          pos_sequence num_z_positions events z_idx_).
End notebook.

(** Modelled from the spec: a stage in fast-sequence mode, as the bridge
    section describes it; each camera trigger (one per event) advances it to
    the next loaded position, wrapping to the first after the last. *)
Definition sequenced_acquire {A} (events : list event) : M (core A) unit :=
  λ c,
    let n := length (stage_sequence c) in
    let at_ := default (stage_position c)
                 (stage_sequence c !! (length events `mod` n)%nat) in
    Some (tt, Core (focus_device c) at_ (properties c) (stage_sequence c)
                (exposure c) (roi c) (calls c)).

(** The values the notebook's parameter cell sets. *)
Definition notebook_params {A} `{Scalar A} (start_end mid step : A)
  : params A :=
  Params "C:\test" "pycromanager test" start_end mid step true
         2 3 200 (924, 770, 616, 514).

Definition params_Q : params Q := notebook_params (-5#2)%Q (5#2)%Q (1#4)%Q.

(** A core at rest, its stage at [pos]. *)
Definition idle_core {A} (pos : A) : core A :=
  Core "ZStage" pos ∅ [] 0 (0, 0, 0, 0) [].

(** The events of a run of time points [ts] over the items [l], the order
    of [l] turning round after each: the closed form of the event loop. *)
Fixpoint sweep (l : list Z) (ts : list Z) : list event :=
  match ts with
  | [] => []
  | t :: ts' => (Event t <$> l) ++ sweep (reverse l) ts'
  end.

(** How often [x] occurs in [l], rationals compared by value. *)
Definition count_of (x : Q) (l : list Q) : nat :=
  length (List.filter (Qeq_bool x) l).

(** Items in strictly ascending, or strictly descending, order. *)
Definition increasing (l : list Q) : Prop :=
  ∀ (i j : nat) (a b : Q),
    l !! i = Some a → l !! j = Some b → (i < j)%nat → (a < b)%Q.
Definition decreasing (l : list Q) : Prop :=
  ∀ (i j : nat) (a b : Q),
    l !! i = Some a → l !! j = Some b → (i < j)%nat → (b < a)%Q.

(** The notebook's parameters with [relative = False]. *)
Definition absolute_params_Q : params Q :=
  Params "C:\test" "pycromanager test" (-5#2)%Q (5#2)%Q (1#4)%Q false
         2 3 200 (924, 770, 616, 514).

(** ** Exact runs

    Where binary64 rounds nowhere, the floats the code computes denote the
    numbers exact arithmetic gives on the numbers its inputs denote. *)

(** The rationals a list of finite floats denotes. *)
Definition values (fs : list PrimFloat.float) : option (list Q) :=
  mapM F64toQ fs.

Definition same_value (f : PrimFloat.float) (q : Q) : bool :=
  match F64toQ f with
  | Some q' => Qeq_bool q' q
  | None => false
  end.

Fixpoint same_values (fs : list PrimFloat.float) (qs : list Q) : bool :=
  match fs, qs with
  | [], [] => true
  | f :: fs', q :: qs' => same_value f q && same_values fs' qs'
  | _, _ => false
  end.

(** Whether [upload_piezo_sequence] computes its two runs exactly, offset
    included, with the stage at [z]: run on binary64 and run on the
    rationals its inputs denote, both runs return and hold the same numbers
    item by item. *)
Definition exact_upload (s m st : PrimFloat.float) (relative : bool)
    (z : PrimFloat.float) : bool :=
  match F64toQ s, F64toQ m, F64toQ st, F64toQ z with
  | Some qs, Some qm, Some qst, Some qz =>
      match arange s (fadd m st) st, arange m (fsub s st) (fopp st),
            arange qs (qm + qst)%Q qst, arange qm (qs - qst)%Q (- qst)%Q with
      | Some fu, Some fd, Some qu, Some qd =>
          same_values (shifted relative (idle_core z) fu)
                      (shifted relative (idle_core qz) qu)
          && same_values (shifted relative (idle_core z) fd)
                         (shifted relative (idle_core qz) qd)
      | _, _, _, _ => false
      end
  | _, _, _, _ => false
  end.

(** Whether [num_z_positions] is computed exactly. *)
Definition exact_count (s m st : PrimFloat.float) : bool :=
  match F64toQ s, F64toQ m, F64toQ st with
  | Some qs, Some qm, Some qst =>
      match count_z_positions s m st, count_z_positions qs qm qst with
      | Some n, Some n' => n =? n'
      | _, _ => false
      end
  | _, _, _ => false
  end.

(** * Properties *)

(** ** The event loop *)

Ltac run_monad :=
  unfold mbind, M_bind, mret, M_ret, lift, list_items, list_reverse,
    list_copy, new_list; simpl.

Lemma foldl_append_events (i : Z) (js : list Z) (ev : list event) :
  foldl (λ ev j, ev ++ [Event i j]) ev js = ev ++ (Event i <$> js).
Proof.
  revert ev. induction js as [|j js IH]; intros ev; simpl.
  - by rewrite app_nil_r.
  - by rewrite IH, <- app_assoc.
Qed.

Lemma time_point_run (r : loc) (ev : list event) (i : Z) (h : heap)
    (l : list Z) :
  h !! r = Some l →
  time_point r ev i h = Some (ev ++ (Event i <$> l), <[r := reverse l]> h).
Proof.
  intros Hr. unfold time_point. run_monad. rewrite Hr. simpl.
  by rewrite Hr, foldl_append_events.
Qed.

Lemma for_each_time_point (r : loc) (ts : list Z) :
  ∀ (ev : list event) (h : heap) (l : list Z),
    h !! r = Some l →
    for_each (time_point r) ts ev h
    = Some (ev ++ sweep l ts, <[r := Nat.iter (length ts) reverse l]> h).
Proof.
  induction ts as [|t ts IH]; intros ev h l Hr; simpl.
  - rewrite app_nil_r. unfold mret, M_ret. by rewrite insert_id.
  - unfold mbind, M_bind. rewrite (time_point_run _ _ _ _ _ Hr).
    rewrite (IH _ _ (reverse l)) by apply lookup_insert_eq.
    rewrite insert_insert_eq, <- app_assoc.
    by rewrite <- Nat.iter_succ_r.
Qed.

Lemma iter_reverse (k : nat) (l : list Z) :
  Nat.iter k reverse l = if Nat.even k then l else reverse l.
Proof.
  induction k as [|k IH]; [done|].
  rewrite Nat.iter_succ, IH, Nat.even_succ, <- Nat.negb_even.
  destruct (Nat.even k); simpl; [done|apply reverse_involutive].
Qed.

Lemma even_to_nat (n : Z) : 0 ≤ n → Nat.even (Z.to_nat n) = Z.even n.
Proof.
  intros Hn. destruct (Z.even n) eqn:E.
  - apply Z.even_spec in E as [k ->]. apply Nat.even_spec.
    exists (Z.to_nat k). lia.
  - apply not_true_is_false. intros [k Hk]%Nat.even_spec.
    assert (Z.even n = true) as E'; [|congruence].
    apply Z.even_spec. exists (Z.of_nat k). lia.
Qed.

(** What the cell "Generate events" returns and leaves, on any heap where
    [z_idx] names a list: the copy is a new object, the only one written. *)
Lemma generate_events_run (h : heap) (r : loc) (l : list Z) (n : Z) :
  h !! r = Some l →
  generate_events r n h
  = Some ((sweep l (range n), fresh (dom h)),
          <[fresh (dom h) := Nat.iter (Z.to_nat n) reverse l]> h).
Proof.
  intros Hr. unfold generate_events. run_monad. rewrite Hr. simpl.
  rewrite (for_each_time_point _ _ _ _ l) by apply lookup_insert_eq.
  unfold range. by rewrite insert_insert_eq, length_seqZ.
Qed.

Lemma fresh_loc_unused (h : heap) : h !! fresh (dom h) = None.
Proof. apply not_elem_of_dom, is_fresh. Qed.

Lemma length_sweep (ts l : list Z) :
  length (sweep l ts) = (length ts * length l)%nat.
Proof.
  revert l. induction ts as [|t ts IH]; intros l; simpl; [done|].
  by rewrite length_app, length_fmap, IH, length_reverse.
Qed.

(** Item [j] of time point [q]: the [q]-th time and the [j]-th item of the
    list turned round [q] times. *)
Lemma sweep_lookup (ts : list Z) :
  ∀ (l : list Z) (q j : nat),
    (j < length l)%nat →
    sweep l ts !! (q * length l + j)%nat
    = (t ← ts !! q; x ← Nat.iter q reverse l !! j; Some (Event t x)).
Proof.
  induction ts as [|t ts IH]; intros l q j Hj; [done|].
  destruct q as [|q]; simpl.
  - rewrite lookup_app_l by by rewrite length_fmap.
    rewrite list_lookup_fmap. by destruct (l !! j).
  - rewrite lookup_app_r by (rewrite length_fmap; lia).
    rewrite length_fmap.
    replace (length l + q * length l + j - length l)%nat
      with (q * length (reverse l) + j)%nat by (rewrite length_reverse; lia).
    rewrite IH by by rewrite length_reverse.
    by rewrite <- Nat.iter_succ_r.
Qed.

Lemma sweep_range_lookup (n T : Z) (q j : nat) :
  (j < Z.to_nat n)%nat →
  sweep (range n) (range T) !! (q * Z.to_nat n + j)%nat
  = if decide (Z.of_nat q < T)
    then Some (Event (Z.of_nat q)
                 (if Nat.even q then Z.of_nat j else n - 1 - Z.of_nat j))
    else None.
Proof.
  intros Hj. pose proof (sweep_lookup (range T) (range n) q j) as Hl.
  unfold range in *. rewrite length_seqZ in Hl. rewrite Hl by done. clear Hl.
  case_decide as Hq.
  - rewrite lookup_seqZ_lt by done. simpl. rewrite iter_reverse.
    destruct (Nat.even q).
    + rewrite lookup_seqZ_lt by lia. done.
    + rewrite reverse_lookup by (rewrite length_seqZ; lia).
      rewrite length_seqZ, lookup_seqZ_lt by lia. simpl.
      do 2 f_equal. lia.
  - rewrite lookup_seqZ_ge by lia. done.
Qed.

(** C4: with three time points over [z_idx = [0, 1, 2]] the event cell
    produces the nine events (0,0) (0,1) (0,2) (1,2) (1,1) (1,0) (2,0) (2,1)
    (2,2), in this order: the z order turns round at each time point. *)
Theorem events_three_by_three (h : heap) (z_idx : loc) :
  h !! z_idx = Some [0; 1; 2] →
  (λ res, res.1.1) <$> generate_events z_idx 3 h
  = Some [Event 0 0; Event 0 1; Event 0 2;
          Event 1 2; Event 1 1; Event 1 0;
          Event 2 0; Event 2 1; Event 2 2].
Proof. intros Hz. by rewrite (generate_events_run _ _ _ _ Hz). Qed.

Lemma events_three_by_three_witness :
  (λ res, res.1.1) <$> generate_events 1%positive 3 {[1%positive := [0; 1; 2]]}
  = Some [Event 0 0; Event 0 1; Event 0 2;
          Event 1 2; Event 1 1; Event 1 0;
          Event 2 0; Event 2 1; Event 2 2].
Proof. apply events_three_by_three. reflexivity. Defined.

(** C5: for a count of time points that is not negative, the event cell
    returns, and the event list has [num_time_points * len(z_idx)] items. *)
Theorem events_length (h : heap) (z_idx : loc) (l : list Z)
    (num_time_points : Z) :
  0 ≤ num_time_points →
  h !! z_idx = Some l →
  ∃ events z_idx_ h',
    generate_events z_idx num_time_points h = Some ((events, z_idx_), h')
    ∧ Z.of_nat (length events) = num_time_points * Z.of_nat (length l).
Proof.
  intros Hn Hz. rewrite (generate_events_run _ _ _ _ Hz).
  eexists _, _, _. split; [done|].
  unfold range. rewrite length_sweep, length_seqZ. lia.
Qed.

Lemma events_length_witness :
  ∃ events z_idx_ h',
    generate_events 1%positive 5 {[1%positive := [0; 1; 2; 3]]}
    = Some ((events, z_idx_), h')
    ∧ Z.of_nat (length events) = 5 * Z.of_nat (length [0; 1; 2; 3]).
Proof. apply events_length; [lia | reflexivity]. Defined.

(** C7: reversing a list object twice restores its items, so after an
    even number of time points the working list [z_idx_] holds the items of
    [z_idx] in their original order. *)
Theorem reverse_twice_restores (h : heap) (z_idx : loc) (l : list Z)
    (num_time_points : Z) :
  h !! z_idx = Some l →
  Z.even num_time_points = true →
  (∃ h', (_ ← list_reverse z_idx; list_reverse z_idx) h = Some (tt, h')
         ∧ h' !! z_idx = Some l)
  ∧ ∃ events z_idx_ h',
      generate_events z_idx num_time_points h = Some ((events, z_idx_), h')
      ∧ h' !! z_idx_ = Some l.
Proof.
  intros Hz Hev. split.
  - run_monad. rewrite Hz. simpl. rewrite lookup_insert_eq. simpl.
    eexists. split; [done|]. by rewrite lookup_insert_eq, reverse_involutive.
  - rewrite (generate_events_run _ _ _ _ Hz). eexists _, _, _. split; [done|].
    rewrite lookup_insert_eq, iter_reverse.
    destruct (Z.le_gt_cases 0 num_time_points) as [Hn|Hn].
    + by rewrite even_to_nat, Hev.
    + by replace (Z.to_nat num_time_points) with 0%nat by lia.
Qed.

Lemma reverse_twice_restores_witness :
  (∃ h', (_ ← list_reverse 1%positive; list_reverse 1%positive)
           ({[1%positive := [0; 1; 2]]} : heap) = Some (tt, h')
         ∧ h' !! 1%positive = Some [0; 1; 2])
  ∧ ∃ events z_idx_ h',
      generate_events 1%positive 4 {[1%positive := [0; 1; 2]]}
      = Some ((events, z_idx_), h')
      ∧ h' !! z_idx_ = Some [0; 1; 2].
Proof. apply reverse_twice_restores; reflexivity. Defined.

(** C8: over [z_idx = [0, ..., n-1]] with [n >= 1], two consecutive events
    are at most one z step apart: inside a time point the step is exactly
    one, and from the last event of a time point to the first of the next
    the z index stays where it is. *)
Theorem consecutive_events_one_step (h : heap) (z_idx : loc)
    (n num_time_points : Z) :
  1 ≤ n →
  h !! z_idx = Some (range n) →
  ∃ events z_idx_ h',
    generate_events z_idx num_time_points h = Some ((events, z_idx_), h')
    ∧ (∀ (k : nat) (e1 e2 : event),
         events !! k = Some e1 → events !! S k = Some e2 →
         Z.abs (z e2 - z e1) ≤ 1
         ∧ (time e2 = time e1 → Z.abs (z e2 - z e1) = 1)
         ∧ (time e2 ≠ time e1 → time e2 = time e1 + 1 ∧ z e2 = z e1))
    ∧ (∀ t : Z,
         0 ≤ t → t + 1 < num_time_points →
         ∃ e1 e2,
           events !! Z.to_nat (t * n + (n - 1)) = Some e1
           ∧ events !! Z.to_nat ((t + 1) * n) = Some e2
           ∧ time e1 = t ∧ time e2 = t + 1 ∧ z e1 = z e2).
Proof.
  intros Hn Hz. rewrite (generate_events_run _ _ _ _ Hz).
  eexists _, _, _. split; [done|].
  set (N := Z.to_nat n). assert (1 ≤ N)%nat as HN by lia.
  pose proof (sweep_range_lookup n num_time_points) as Hat. fold N in Hat.
  split.
  - intros k e1 e2 H1 H2.
    pose proof (Nat.div_mod_eq k N) as Hk.
    pose proof (Nat.mod_upper_bound k N ltac:(lia)) as Hj.
    set (q := (k / N)%nat) in *. set (j := (k `mod` N)%nat) in *.
    replace k with (q * N + j)%nat in H1 by lia.
    rewrite Hat in H1 by done.
    case_decide as Hq; [|done]. injection H1 as <-.
    destruct (decide (S j < N)%nat) as [Hj'|Hj'].
    + replace (S k) with (q * N + S j)%nat in H2 by lia.
      rewrite Hat in H2 by done.
      rewrite decide_True in H2 by done. injection H2 as <-. simpl.
      destruct (Nat.even q); lia.
    + remember (S q) as q' eqn:Hq'.
      replace (S k) with (q' * N + 0)%nat in H2 by lia.
      rewrite Hat in H2 by lia.
      case_decide as Hlt; [|done]. injection H2 as <-.
      rewrite Hq', Nat.even_succ, <- Nat.negb_even. simpl.
      destruct (Nat.even q); simpl; lia.
  - intros t Ht0 Ht.
    replace (Z.to_nat (t * n + (n - 1)))
      with (Z.to_nat t * N + (N - 1))%nat by lia.
    remember (S (Z.to_nat t)) as q' eqn:Hq'.
    replace (Z.to_nat ((t + 1) * n)) with (q' * N + 0)%nat by lia.
    rewrite !Hat by lia.
    rewrite !decide_True by lia.
    eexists _, _. split; [done|]. split; [done|]. simpl.
    rewrite Hq', Nat.even_succ, <- Nat.negb_even.
    destruct (Nat.even (Z.to_nat t)); simpl; lia.
Qed.

Lemma consecutive_events_one_step_witness :
  ∃ events z_idx_ h',
    generate_events 1%positive 3 {[1%positive := range 4]}
    = Some ((events, z_idx_), h')
    ∧ (∀ (k : nat) (e1 e2 : event),
         events !! k = Some e1 → events !! S k = Some e2 →
         Z.abs (z e2 - z e1) ≤ 1
         ∧ (time e2 = time e1 → Z.abs (z e2 - z e1) = 1)
         ∧ (time e2 ≠ time e1 → time e2 = time e1 + 1 ∧ z e2 = z e1))
    ∧ (∀ t : Z,
         0 ≤ t → t + 1 < 3 →
         ∃ e1 e2,
           events !! Z.to_nat (t * 4 + (4 - 1)) = Some e1
           ∧ events !! Z.to_nat ((t + 1) * 4) = Some e2
           ∧ time e1 = t ∧ time e2 = t + 1 ∧ z e1 = z e2).
Proof. apply consecutive_events_one_step; [lia | reflexivity]. Defined.

(** C9: the event cell works on a copy: whatever the number of time
    points, odd ones included, it returns, [z_idx_] is another object than
    [z_idx], and [z_idx] holds the items it held before. *)
Theorem z_idx_unchanged (h : heap) (z_idx : loc) (l : list Z)
    (num_time_points : Z) :
  h !! z_idx = Some l →
  ∃ events z_idx_ h',
    generate_events z_idx num_time_points h = Some ((events, z_idx_), h')
    ∧ z_idx_ ≠ z_idx
    ∧ h' !! z_idx = Some l.
Proof.
  intros Hz. rewrite (generate_events_run _ _ _ _ Hz).
  eexists _, _, _. split; [done|].
  assert (fresh (dom h) ≠ z_idx) as Hne.
  { intros Heq. pose proof (fresh_loc_unused h) as Hf. congruence. }
  split; [done|]. by rewrite lookup_insert_ne.
Qed.

Lemma z_idx_unchanged_witness :
  ∃ events z_idx_ h',
    generate_events 1%positive 3 {[1%positive := [0; 1; 2]]}
    = Some ((events, z_idx_), h')
    ∧ z_idx_ ≠ 1%positive
    ∧ h' !! 1%positive = Some [0; 1; 2].
Proof. apply z_idx_unchanged. reflexivity. Defined.

(** Without the copy the loop would run on [z_idx] itself, and an odd
    number of time points would leave it reversed. *)
Lemma loop_in_place_reverses (h : heap) (z_idx : loc) (l : list Z)
    (num_time_points : Z) :
  h !! z_idx = Some l →
  0 ≤ num_time_points →
  Z.odd num_time_points = true →
  ∃ events h',
    for_each (time_point z_idx) (range num_time_points) [] h
    = Some (events, h')
    ∧ h' !! z_idx = Some (reverse l).
Proof.
  intros Hz Hn Hodd. rewrite (for_each_time_point _ _ _ _ _ Hz).
  eexists _, _. split; [done|].
  unfold range. rewrite lookup_insert_eq, length_seqZ, iter_reverse.
  by rewrite even_to_nat, <- Z.negb_odd, Hodd.
Qed.

(** ** The upload *)

Section upload_facts.
Context {A : Type} `{Scalar A}.

Lemma foldl_add_all (l v : list A) : foldl (λ v i, v ++ [i]) v l = v ++ l.
Proof.
  revert v. induction l as [|x l IH]; intros v; simpl.
  - by rewrite app_nil_r.
  - by rewrite IH, <- app_assoc.
Qed.

Lemma upload_piezo_sequence_run (start_end_pos mid_pos step_size : A)
    (relative : bool) (c : core A) :
  upload_piezo_sequence start_end_pos mid_pos step_size relative c
  = (seq ← triangle start_end_pos mid_pos step_size;
     Some ((offset_of relative c, shifted relative c seq),
           uploaded relative c seq)).
Proof.
  unfold upload_piezo_sequence, uploaded, upload_calls, offset_of, shifted.
  run_monad.
  destruct (triangle start_end_pos mid_pos step_size) as [seq|]; [|done].
  destruct relative; simpl; rewrite foldl_add_all; simpl;
    unfold record; simpl; by rewrite <- !app_assoc.
Qed.

Lemma length_shifted (relative : bool) (c : core A) (seq : list A) :
  length (shifted relative c seq) = length seq.
Proof. destruct relative; simpl; [apply length_fmap|done]. Qed.
End upload_facts.

(** C6: on any core, the sequence of a relative upload is the sequence of
    the absolute upload with the same arguments, each item shifted by one
    constant: the position [get_position] reported, which is also the
    [z_pos] returned. Either both uploads raise or neither does. *)
Theorem relative_is_shifted_absolute {A : Type} `{Scalar A}
    (start_end_pos mid_pos step_size : A) (c : core A) :
  match upload_piezo_sequence start_end_pos mid_pos step_size false c,
        upload_piezo_sequence start_end_pos mid_pos step_size true c with
  | Some ((_, absolute), _), Some ((z_pos, relative), c') =>
      relative = (λ p, fadd p z_pos) <$> absolute
      ∧ GetPosition (focus_device c) z_pos ∈ calls c'
      ∧ z_pos = stage_position c
  | None, None => True
  | _, _ => False
  end.
Proof.
  rewrite !upload_piezo_sequence_run.
  destruct (triangle start_end_pos mid_pos step_size) as [seq|]; simpl;
    [|done].
  split; [done|]. split; [|done].
  unfold upload_calls. simpl. rewrite !elem_of_app, !elem_of_cons. tauto.
Qed.

(** ** The whole notebook *)

Section notebook_facts.
Context {A : Type} `{Scalar A}.
Variable acquire : list event → M (core A) unit.
Hypothesis acquire_returns : ∀ events c, is_Some (acquire events c).

Lemma notebook_run (p : params A) (c : core A) (h : heap) (n0 T : Z)
    (first : A) (rest : list A) :
  count_z_positions (start_end_pos p) (mid_pos p) (step_size p) = Some n0 →
  count_time_points (duration p) (framerate p) n0 = Some T →
  triangle (start_end_pos p) (mid_pos p) (step_size p)
  = Some (first :: rest) →
  ∃ c_end h_end z_idx_,
    notebook acquire p (c, h)
    = Some (Bindings n0 (fresh (dom h)) T (focus_device c)
              (offset_of (relative p) c)
              (shifted (relative p) c (first :: rest))
              (Z.of_nat (length (shifted (relative p) c (first :: rest))))
              (sweep (range n0) (range T)) z_idx_,
            (c_end, h_end))
    ∧ stage_position c_end = offset_of (relative p) c
    ∧ last (calls c_end)
      = Some (SetPosition (focus_device c) (offset_of (relative p) c))
    ∧ h_end !! fresh (dom h) = Some (range n0).
Proof.
  intros Hn0 HT Htri. unfold notebook, on_core, on_heap. run_monad.
  rewrite Hn0. simpl. rewrite HT. simpl.
  destruct (ROI p) as [[[x y] w] hh]. simpl.
  rewrite upload_piezo_sequence_run, Htri.
  unfold offset_of, shifted, uploaded, upload_calls, record. simpl.
  destruct (relative p); simpl.
  all: rewrite (generate_events_run _ _ (range n0))
         by apply lookup_insert_eq; simpl.
  all: match goal with
       | |- context [acquire ?e ?c0] =>
           destruct (acquire_returns e c0) as [[[] c_acq] Hacq];
           rewrite Hacq
       end; simpl.
  all: eexists _, _, _; split; [reflexivity|]; simpl.
  all: split; [done|]; split; [by rewrite last_snoc|].
  all: assert (fresh (dom (<[fresh (dom h) := range n0]> h))
               ≠ fresh (dom h)) as Hne.
  1, 3: intros Heq;
    pose proof (is_fresh (dom (<[fresh (dom h) := range n0]> h))) as Hf;
    rewrite Heq in Hf; apply Hf, elem_of_dom;
    by rewrite lookup_insert_eq.
  all: rewrite lookup_insert_ne by done.
  all: by rewrite lookup_insert_eq.
Qed.
End notebook_facts.

(** C10: an absolute upload ([relative=False]) returns 0 as [z_pos] and
    makes no [get_position] call, whatever the stage position is; so when
    the notebook has run, its last call has moved the stage to position 0,
    wherever the stage was before the run. *)
Theorem absolute_mode_resets_to_zero {A : Type} `{Scalar A}
    (acquire : list event → M (core A) unit) (p : params A)
    (c : core A) (h : heap) (n0 T : Z) (first : A) (rest : list A) :
  relative p = false →
  (∀ events c, is_Some (acquire events c)) →
  count_z_positions (start_end_pos p) (mid_pos p) (step_size p) = Some n0 →
  count_time_points (duration p) (framerate p) n0 = Some T →
  triangle (start_end_pos p) (mid_pos p) (step_size p) = Some (first :: rest) →
  (∃ seq c' new,
     upload_piezo_sequence (start_end_pos p) (mid_pos p) (step_size p) false c
     = Some ((of_int 0, seq), c')
     ∧ calls c' = calls c ++ new
     ∧ Forall (λ k, is_position_query k = false) new
     ∧ stage_position c' = stage_position c)
  ∧ ∃ b c_end h_end,
      notebook acquire p (c, h) = Some (b, (c_end, h_end))
      ∧ z_pos b = of_int 0
      ∧ last (calls c_end) = Some (SetPosition (z_stage b) (of_int 0))
      ∧ stage_position c_end = of_int 0.
Proof.
  intros Hrel Hacq Hn0 HT Htri. split.
  - rewrite upload_piezo_sequence_run, Htri. simpl.
    eexists _, _, _. split; [done|]. split; [done|]. split; [|done].
    unfold upload_calls. simpl. by repeat constructor.
  - destruct (notebook_run acquire Hacq p c h n0 T first rest Hn0 HT Htri)
      as (c_end & h_end & r & Hrun & Hpos & Hlast & _).
    rewrite Hrel in *. simpl in *.
    eexists _, _, _. split; [exact Hrun|]. simpl. done.
Qed.

(** ** The triangle waveform, in exact arithmetic *)

Lemma Qceiling_unique (x : Q) (k : Z) :
  (inject_Z (k - 1) < x)%Q → (x <= inject_Z k)%Q → Qceiling x = k.
Proof.
  intros Hlo Hhi.
  pose proof (Qle_ceiling x) as Hc1. pose proof (Qceiling_lt x) as Hc2.
  assert (k - 1 < Qceiling x).
  { rewrite Zlt_Qlt. eapply Qlt_le_trans; eauto. }
  assert (Qceiling x - 1 < k).
  { rewrite Zlt_Qlt. eapply Qlt_le_trans; eauto. }
  lia.
Qed.

Lemma Qfloor_unique (x : Q) (k : Z) :
  (inject_Z k <= x)%Q → (x < inject_Z (k + 1))%Q → Qfloor x = k.
Proof.
  intros Hlo Hhi.
  pose proof (Qfloor_le x) as Hf1. pose proof (Qlt_floor x) as Hf2.
  assert (k < Qfloor x + 1).
  { rewrite Zlt_Qlt. eapply Qle_lt_trans; eauto. }
  assert (Qfloor x < k + 1).
  { rewrite Zlt_Qlt. eapply Qle_lt_trans; eauto. }
  lia.
Qed.

Lemma Qceiling_succ (x : Q) : Qceiling (x + 1) = Qceiling x + 1.
Proof.
  pose proof (Qle_ceiling x) as Hc1. pose proof (Qceiling_lt x) as Hc2.
  apply Qceiling_unique.
  - replace (Qceiling x + 1 - 1) with (Qceiling x - 1 + 1) by lia.
    rewrite inject_Z_plus. change (inject_Z 1) with 1%Q. lra.
  - rewrite inject_Z_plus. change (inject_Z 1) with 1%Q. lra.
Qed.

Lemma Qfloor_succ (x : Q) : Qfloor (x + 1) = Qfloor x + 1.
Proof.
  pose proof (Qfloor_le x) as Hf1. pose proof (Qlt_floor x) as Hf2.
  apply Qfloor_unique.
  - rewrite inject_Z_plus. change (inject_Z 1) with 1%Q. lra.
  - rewrite !inject_Z_plus in *. change (inject_Z 1) with 1%Q in *. lra.
Qed.

Lemma Qfloor_le_ceiling (x : Q) : Qfloor x ≤ Qceiling x.
Proof.
  pose proof (Qfloor_le x). pose proof (Qle_ceiling x).
  rewrite Zle_Qle. lra.
Qed.

(** Item [i] of an [arange] is [start + i * step]. *)
Lemma arange_item_Q (start step : Q) (i : Z) :
  (arange_item start step i == start + inject_Z i * step)%Q.
Proof.
  unfold arange_item. simpl.
  destruct (Z.eqb_spec i 0) as [->|_]; [ring|].
  destruct (Z.eqb_spec i 1) as [->|_]; ring.
Qed.

Lemma arange_Q (start stop step : Q) :
  ¬ (step == 0)%Q →
  arange start stop step
  = Some (arange_item start step <$> range (Qceiling ((stop - start) / step))).
Proof.
  intros Hstep. unfold arange. simpl.
  destruct (Qeq_bool step 0) eqn:E; [|done].
  by apply Qeq_bool_eq in E.
Qed.

Lemma arange_Q_lookup (start step : Q) (n : Z) (i : nat) (x : Q) :
  (arange_item start step <$> range n) !! i = Some x →
  Z.of_nat i < n ∧ (x == start + inject_Z (Z.of_nat i) * step)%Q.
Proof.
  unfold range. rewrite list_lookup_fmap.
  destruct (seqZ 0 n !! i) as [k|] eqn:E; [|done].
  apply lookup_seqZ in E as [-> Hi]. simpl. intros [= <-].
  split; [done|]. apply arange_item_Q.
Qed.

Lemma steps_positive (s m st : Q) :
  (s < m)%Q → (0 < st)%Q → 1 ≤ Qceiling ((m - s) / st).
Proof.
  intros Hsm Hst. pose proof (Qle_ceiling ((m - s) / st)) as Hc.
  assert (0 < (m - s) / st)%Q as Hd by (apply Qlt_shift_div_l; lra).
  assert (0 < Qceiling ((m - s) / st)); [|lia].
  rewrite Zlt_Qlt. change (inject_Z 0) with 0%Q. lra.
Qed.

(** Both runs have one item more than there are steps from [s] up to [m],
    the last step rounded up. *)
Lemma triangle_Q (s m st : Q) :
  (s < m)%Q → (0 < st)%Q →
  let n := Qceiling ((m - s) / st) + 1 in
  arange s (m + st)%Q st = Some (arange_item s st <$> range n)
  ∧ arange m (s - st)%Q (- st)%Q = Some (arange_item m (- st)%Q <$> range n)
  ∧ triangle s m st
    = Some ((arange_item s st <$> range n)
            ++ (arange_item m (- st)%Q <$> range n)).
Proof.
  intros Hsm Hst n.
  assert (arange s (m + st)%Q st = Some (arange_item s st <$> range n)) as Hup.
  { rewrite arange_Q by lra. do 3 f_equal. unfold n.
    rewrite <- Qceiling_succ. apply Qceiling_comp. field. lra. }
  assert (arange m (s - st)%Q (- st)%Q
          = Some (arange_item m (- st)%Q <$> range n)) as Hdown.
  { rewrite arange_Q by lra. do 3 f_equal. unfold n.
    rewrite <- Qceiling_succ. apply Qceiling_comp. field. lra. }
  split; [done|]. split; [done|].
  unfold triangle. simpl. by rewrite Hup, Hdown.
Qed.

Lemma increasing_arange (s st : Q) (n : Z) :
  (0 < st)%Q → increasing (arange_item s st <$> range n).
Proof.
  intros Hst i j a b Ha Hb Hij.
  apply arange_Q_lookup in Ha as [_ ->]. apply arange_Q_lookup in Hb as [_ ->].
  assert (inject_Z (Z.of_nat i) < inject_Z (Z.of_nat j))%Q
    by (rewrite <- Zlt_Qlt; lia).
  nra.
Qed.

Lemma decreasing_arange (s st : Q) (n : Z) :
  (0 < st)%Q → decreasing (arange_item s (- st)%Q <$> range n).
Proof.
  intros Hst i j a b Ha Hb Hij.
  apply arange_Q_lookup in Ha as [_ ->]. apply arange_Q_lookup in Hb as [_ ->].
  assert (inject_Z (Z.of_nat i) < inject_Z (Z.of_nat j))%Q
    by (rewrite <- Zlt_Qlt; lia).
  nra.
Qed.

(** Counting occurrences. *)

Lemma count_of_app (x : Q) (l1 l2 : list Q) :
  count_of x (l1 ++ l2) = (count_of x l1 + count_of x l2)%nat.
Proof. unfold count_of. by rewrite List.filter_app, length_app. Qed.

Lemma count_of_cons (x y : Q) (l : list Q) :
  count_of x (y :: l)
  = ((if Qeq_bool x y then 1 else 0) + count_of x l)%nat.
Proof. unfold count_of. simpl. by destruct (Qeq_bool x y). Qed.

Lemma count_of_none (x : Q) (l : list Q) :
  (∀ y, y ∈ l → ¬ (x == y)%Q) → count_of x l = 0%nat.
Proof.
  induction l as [|y l IH]; intros Hl; [done|].
  rewrite count_of_cons, IH.
  - destruct (Qeq_bool x y) eqn:E; [|done].
    apply Qeq_bool_iff in E. destruct (Hl y); [left|done].
  - intros y' Hy'. apply Hl. by right.
Qed.

Lemma count_of_some (x : Q) (l : list Q) (i : nat) (y : Q) :
  l !! i = Some y → (x == y)%Q → (1 ≤ count_of x l)%nat.
Proof.
  revert i. induction l as [|a l IH]; intros i Hi Hxy; [done|].
  rewrite count_of_cons. destruct i as [|i]; simpl in Hi.
  - injection Hi as ->. apply Qeq_bool_iff in Hxy. rewrite Hxy. lia.
  - specialize (IH i Hi Hxy). lia.
Qed.

Lemma count_of_found (x : Q) (l : list Q) :
  (1 ≤ count_of x l)%nat → ∃ i y, l !! i = Some y ∧ (x == y)%Q.
Proof.
  induction l as [|a l IH]; [unfold count_of; simpl; lia|].
  rewrite count_of_cons. destruct (Qeq_bool x a) eqn:E.
  - intros _. exists 0%nat, a. split; [done|]. by apply Qeq_bool_iff.
  - simpl. intros [i [y [Hi Hy]]]%IH. by exists (S i), y.
Qed.

(** Along a strict order an item occurs at most once. *)
Lemma count_of_strict (R : Q → Q → Prop) (x : Q) (l : list Q) :
  (∀ a b, R a b → ¬ (a == b)%Q) →
  (∀ a a' b, (a == a')%Q → R a b → R a' b) →
  (∀ (i j : nat) (a b : Q),
     l !! i = Some a → l !! j = Some b → (i < j)%nat → R a b) →
  (count_of x l ≤ 1)%nat.
Proof.
  intros Hirr Hcomp. induction l as [|a l IH]; intros Hord.
  - unfold count_of. simpl. lia.
  - rewrite count_of_cons. destruct (Qeq_bool x a) eqn:E.
    + rewrite count_of_none; [lia|].
      intros y [k Hk]%list_elem_of_lookup. apply Hirr.
      apply Qeq_bool_iff in E. apply (Hcomp a); [by symmetry|].
      apply (Hord 0%nat (S k)); [done|done|lia].
    + simpl. apply IH. intros i j a' b' Hi Hj Hij.
      apply (Hord (S i) (S j)); [done|done|lia].
Qed.

Lemma count_of_increasing (x : Q) (l : list Q) :
  increasing l → (count_of x l ≤ 1)%nat.
Proof.
  intros Hl. apply (count_of_strict Qlt); [| |exact Hl].
  - intros a b Hab Heq. rewrite Heq in Hab. by apply Qlt_irrefl in Hab.
  - intros a a' b Heq Hab. by rewrite <- Heq.
Qed.

Lemma count_of_decreasing (x : Q) (l : list Q) :
  decreasing l → (count_of x l ≤ 1)%nat.
Proof.
  intros Hl. apply (count_of_strict (λ a b, b < a)%Q); [| |exact Hl].
  - intros a b Hab Heq. rewrite Heq in Hab. by apply Qlt_irrefl in Hab.
  - intros a a' b Heq Hab. by rewrite <- Heq.
Qed.

Lemma exact_steps (s m st : Q) (k : Z) :
  (0 < st)%Q → (m - s == inject_Z k * st)%Q → Qceiling ((m - s) / st) = k.
Proof.
  intros Hst Hk. rewrite <- (Qceiling_Z k). apply Qceiling_comp.
  rewrite Hk. field. lra.
Qed.

(** In exact arithmetic, for [start_end_pos < mid_pos] and a positive
    [step_size], the ascending run is strictly
    increasing and the descending run strictly decreasing. The descending
    run starts at [mid_pos] itself and holds it once. The ascending run
    holds [mid_pos] (as its last item) exactly when [step_size] divides
    [mid_pos - start_end_pos]: then [mid_pos] occurs twice in the sequence,
    and once otherwise. *)
Theorem triangle_halves_monotone (s m st : Q) :
  (s < m)%Q → (0 < st)%Q →
  ∃ up down : list Q,
    arange s (m + st)%Q st = Some up
    ∧ arange m (s - st)%Q (- st)%Q = Some down
    ∧ triangle s m st = Some (up ++ down)
    ∧ increasing up
    ∧ decreasing down
    ∧ head down = Some m
    ∧ count_of m down = 1%nat
    ∧ ((∃ k : Z, (m - s == inject_Z k * st)%Q) →
       (∃ x, last up = Some x ∧ (x == m)%Q)
       ∧ count_of m up = 1%nat ∧ count_of m (up ++ down) = 2%nat)
    ∧ (¬ (∃ k : Z, (m - s == inject_Z k * st)%Q) →
       count_of m up = 0%nat ∧ count_of m (up ++ down) = 1%nat).
Proof.
  intros Hsm Hst.
  destruct (triangle_Q s m st Hsm Hst) as (Hup & Hdown & Htri).
  pose proof (steps_positive s m st Hsm Hst) as Hn.
  set (n := Qceiling ((m - s) / st) + 1) in *.
  set (up := arange_item s st <$> range n) in *.
  set (down := arange_item m (- st)%Q <$> range n) in *.
  exists up, down.
  assert (increasing up) as Hinc by by apply increasing_arange.
  assert (decreasing down) as Hdec by by apply decreasing_arange.
  assert (down !! 0%nat = Some m) as Hhead.
  { unfold down, range. rewrite list_lookup_fmap, lookup_seqZ_lt by lia. done. }
  assert (count_of m down = 1%nat) as Hdown1.
  { pose proof (count_of_decreasing m down Hdec).
    pose proof (count_of_some m down 0 m Hhead ltac:(reflexivity)). lia. }
  do 5 (split; [done|]).
  split; [by destruct down|]. split; [done|].
  rewrite count_of_app, Hdown1.
  pose proof (count_of_increasing m up Hinc) as Hup1.
  split.
  - intros [k Hk].
    pose proof (exact_steps s m st k Hst Hk) as Hc.
    assert (up !! Z.to_nat k = Some (arange_item s st k)) as Hat.
    { unfold up, range. rewrite list_lookup_fmap, lookup_seqZ_lt by lia.
      simpl. do 2 f_equal. lia. }
    assert (arange_item s st k == m)%Q as Hm.
    { rewrite arange_item_Q. lra. }
    pose proof (count_of_some m up _ _ Hat ltac:(by symmetry)).
    split; [|lia].
    exists (arange_item s st k). split; [|done].
    rewrite last_lookup. rewrite <- Hat. f_equal.
    unfold up, range. rewrite length_fmap, length_seqZ. lia.
  - intros Hnone.
    assert (count_of m up = 0%nat) as Hup0; [|lia].
    destruct (count_of m up) as [|c] eqn:E; [done|].
    destruct (count_of_found m up ltac:(lia)) as (i & y & Hi & Hy).
    apply arange_Q_lookup in Hi as [_ Hi]. destruct Hnone.
    exists (Z.of_nat i). rewrite Hy, Hi. ring.
Qed.

Lemma triangle_halves_monotone_witness :
  ∃ up down : list Q,
    arange (-5#2)%Q ((5#2) + (1#4))%Q (1#4)%Q = Some up
    ∧ arange (5#2)%Q ((-5#2) - (1#4))%Q (- (1#4))%Q = Some down
    ∧ triangle (-5#2)%Q (5#2)%Q (1#4)%Q = Some (up ++ down)
    ∧ increasing up
    ∧ decreasing down
    ∧ head down = Some (5#2)%Q
    ∧ count_of (5#2)%Q down = 1%nat
    ∧ ((∃ k : Z, ((5#2) - (-5#2) == inject_Z k * (1#4))%Q) →
       (∃ x, last up = Some x ∧ (x == 5#2)%Q)
       ∧ count_of (5#2)%Q up = 1%nat
       ∧ count_of (5#2)%Q (up ++ down) = 2%nat)
    ∧ (¬ (∃ k : Z, ((5#2) - (-5#2) == inject_Z k * (1#4))%Q) →
       count_of (5#2)%Q up = 0%nat
       ∧ count_of (5#2)%Q (up ++ down) = 1%nat).
Proof. apply triangle_halves_monotone; reflexivity. Defined.

(** In exact arithmetic too [mid_pos] occurs twice, not once, on the
    notebook's own parameters. *)
Lemma turning_point_not_unique :
  ¬ (∀ s m st : Q,
       (s < m)%Q → (0 < st)%Q →
       ∃ up down : list Q,
         arange s (m + st)%Q st = Some up
         ∧ arange m (s - st)%Q (- st)%Q = Some down
         ∧ triangle s m st = Some (up ++ down)
         ∧ increasing up
         ∧ decreasing down
         ∧ count_of m (up ++ down) = 1%nat
         ∧ ¬ (∃ x y, last up = Some x ∧ head down = Some y ∧ (x == y)%Q)).
Proof.
  intros Hclaim.
  destruct (Hclaim (-5#2)%Q (5#2)%Q (1#4)%Q eq_refl eq_refl)
    as (up & down & Hup & Hdown & _ & _ & _ & Hcount & _).
  vm_compute in Hup. vm_compute in Hdown.
  injection Hup as <-. injection Hdown as <-.
  vm_compute in Hcount. discriminate.
Qed.

(** C1, as the code has it: for [start_end_pos = -2.5], [mid_pos = 2.5],
    [step_size = 0.25] the ascending run has the 21 values from -2.5 to 2.5
    and the descending run has 21 values too, from 2.5 (not 2.25) down to
    -2.5; the sequence has 42 items, twice the 21 that
    [int(abs(mid_pos - start_end_pos) / step_size + 1)] gives. Values are
    shown in lowest terms. *)
Theorem notebook_triangle_values :
  ∃ up down : list Q,
    arange (-5#2)%Q ((5#2) + (1#4))%Q (1#4)%Q = Some up
    ∧ arange (5#2)%Q ((-5#2) - (1#4))%Q (- (1#4))%Q = Some down
    ∧ triangle (-5#2)%Q (5#2)%Q (1#4)%Q = Some (up ++ down)
    ∧ Qred <$> up
      = [-5#2; -9#4; -2#1; -7#4; -3#2; -5#4; -1#1; -3#4; -1#2; -1#4; 0#1;
         1#4; 1#2; 3#4; 1#1; 5#4; 3#2; 7#4; 2#1; 9#4; 5#2]%Q
    ∧ Qred <$> down
      = [5#2; 9#4; 2#1; 7#4; 3#2; 5#4; 1#1; 3#4; 1#2; 1#4; 0#1;
         -1#4; -1#2; -3#4; -1#1; -5#4; -3#2; -7#4; -2#1; -9#4; -5#2]%Q
    ∧ length up = 21%nat
    ∧ length down = 21%nat
    ∧ length (up ++ down) = 42%nat
    ∧ count_z_positions (-5#2)%Q (5#2)%Q (1#4)%Q = Some 21
    ∧ Z.of_nat (length (up ++ down)) = 2 * 21.
Proof.
  eexists _, _.
  split; [vm_compute; reflexivity|].
  split; [vm_compute; reflexivity|].
  repeat split; vm_compute; reflexivity.
Qed.

(** The claim C1 as the specification words it: a descending run of 20
    values starting at 2.25 and 41 positions in all, as many as
    [num_z_positions]. The code gives 21, 42 and 21. *)
Lemma descending_run_not_twenty :
  ¬ (∃ up down : list Q,
       arange (-5#2)%Q ((5#2) + (1#4))%Q (1#4)%Q = Some up
       ∧ arange (5#2)%Q ((-5#2) - (1#4))%Q (- (1#4))%Q = Some down
       ∧ triangle (-5#2)%Q (5#2)%Q (1#4)%Q = Some (up ++ down)
       ∧ Qred <$> up
         = [-5#2; -9#4; -2#1; -7#4; -3#2; -5#4; -1#1; -3#4; -1#2; -1#4; 0#1;
            1#4; 1#2; 3#4; 1#1; 5#4; 3#2; 7#4; 2#1; 9#4; 5#2]%Q
       ∧ Qred <$> down
         = [9#4; 2#1; 7#4; 3#2; 5#4; 1#1; 3#4; 1#2; 1#4; 0#1;
            -1#4; -1#2; -3#4; -1#1; -5#4; -3#2; -7#4; -2#1; -9#4; -5#2]%Q
       ∧ length (up ++ down) = 41%nat
       ∧ count_z_positions (-5#2)%Q (5#2)%Q (1#4)%Q
         = Some (Z.of_nat (length (up ++ down)))).
Proof.
  intros (up & down & Hup & Hdown & _ & _ & _ & Hlen & _).
  vm_compute in Hup. vm_compute in Hdown.
  injection Hup as <-. injection Hdown as <-.
  vm_compute in Hlen. discriminate.
Qed.

(** ** The z indices and the uploaded sequence *)

Lemma count_z_positions_Q (s m st : Q) :
  (s < m)%Q → (0 < st)%Q →
  count_z_positions s m st = Some (Qfloor ((m - s) / st) + 1).
Proof.
  intros Hsm Hst. unfold count_z_positions.
  cbn [of_int fadd fsub fdiv fabs is_zero trunc Q_scalar].
  change (inject_Z 1) with 1%Q.
  destruct (Qeq_bool st 0) eqn:E.
  { apply Qeq_bool_eq in E. lra. }
  f_equal. unfold Qtrunc.
  assert (0 < (m - s) / st)%Q as Hd by (apply Qlt_shift_div_l; lra).
  assert (Qabs (m - s) / st + 1 == (m - s) / st + 1)%Q as Heq.
  { rewrite Qabs_pos by lra. reflexivity. }
  destruct (Qle_bool 0 (Qabs (m - s) / st + 1)) eqn:E'.
  - rewrite <- Qfloor_succ. by apply Qfloor_comp.
  - assert (Qle_bool 0 (Qabs (m - s) / st + 1) = true); [|congruence].
    apply Qle_bool_iff. lra.
Qed.

Lemma count_time_points_Q (d f n : Z) :
  n ≠ 0 → is_Some (count_time_points (A:=Q) d f n).
Proof.
  intros Hn. unfold count_time_points.
  cbn [int_div fceil astype_int Q_scalar].
  destruct (Z.eqb_spec n 0); [done|]. by eexists.
Qed.

Lemma elem_of_sweep (ts l : list Z) (e : event) :
  e ∈ sweep l ts → z e ∈ l.
Proof.
  revert l. induction ts as [|t ts IH]; intros l; simpl.
  - by intros ?%elem_of_nil.
  - rewrite elem_of_app. intros [He|He].
    + apply list_elem_of_fmap in He as (x & -> & Hx). done.
    + apply IH in He. by apply elem_of_reverse.
Qed.

(** In exact arithmetic, for [start_end_pos < mid_pos] and a positive
    [step_size], and with an acquisition that returns,
    the notebook runs to its end; [z_idx] is the list [0 .. n-1] for
    [n = int(abs(mid_pos - start_end_pos) / step_size + 1)], the value
    [num_z_positions] has before the upload, while the uploaded sequence
    has at least [2 * n] positions. So every z of an event addresses an
    uploaded position, and z indices address only the first [n] of them. *)
Theorem z_idx_within_uploaded_sequence
    (acquire : list event → M (core Q) unit) (p : params Q)
    (c : core Q) (h : heap) :
  (start_end_pos p < mid_pos p)%Q →
  (0 < step_size p)%Q →
  (∀ events c, is_Some (acquire events c)) →
  ∃ b c_end h_end,
    notebook acquire p (c, h) = Some (b, (c_end, h_end))
    ∧ count_z_positions (start_end_pos p) (mid_pos p) (step_size p)
      = Some (num_z_positions0 b)
    ∧ h_end !! z_idx b = Some (range (num_z_positions0 b))
    ∧ num_z_positions b = Z.of_nat (length (pos_sequence b))
    ∧ 1 ≤ num_z_positions0 b
    ∧ 2 * num_z_positions0 b ≤ num_z_positions b
    ∧ ∀ e, e ∈ events b →
        0 ≤ z e < num_z_positions0 b
        ∧ is_Some (pos_sequence b !! Z.to_nat (z e)).
Proof.
  intros Hsm Hst Hacq.
  pose proof (count_z_positions_Q _ _ _ Hsm Hst) as Hn0.
  pose proof (Qfloor_le_ceiling ((mid_pos p - start_end_pos p) / step_size p))
    as Hfc.
  pose proof (steps_positive _ _ _ Hsm Hst) as Hc.
  assert (0 ≤ Qfloor ((mid_pos p - start_end_pos p) / step_size p)) as Hf.
  { assert (0 < (mid_pos p - start_end_pos p) / step_size p)%Q as Hd
      by (apply Qlt_shift_div_l; lra).
    change 0 with (Qfloor 0). apply Qfloor_resp_le. lra. }
  set (n0 := Qfloor ((mid_pos p - start_end_pos p) / step_size p) + 1) in *.
  destruct (count_time_points_Q (duration p) (framerate p) n0 ltac:(lia))
    as [T HT].
  destruct (triangle_Q _ _ _ Hsm Hst) as (_ & _ & Htri).
  set (n := Qceiling ((mid_pos p - start_end_pos p) / step_size p) + 1) in *.
  assert (range n = 0 :: seqZ 1 (n - 1)) as Hr.
  { unfold range. rewrite seqZ_cons by lia. done. }
  set (seq := (arange_item (start_end_pos p) (step_size p) <$> range n)
              ++ (arange_item (mid_pos p) (- step_size p)%Q <$> range n))
    in *.
  assert (length seq = Z.to_nat (2 * n)) as Hlen.
  { unfold seq, range. rewrite length_app, !length_fmap, !length_seqZ. lia. }
  destruct seq as [|first rest] eqn:Eseq; [simpl in Hlen; lia|].
  destruct (notebook_run acquire Hacq p c h n0 T first rest Hn0 HT Htri)
    as (c_end & h_end & r & Hrun & _ & _ & Hz).
  eexists _, _, _. split; [exact Hrun|]. simpl.
  rewrite length_shifted, Hlen.
  split; [done|]. split; [done|]. split; [done|]. split; [lia|].
  split; [simpl in *; lia|].
  intros e He%elem_of_sweep. unfold range in He.
  apply elem_of_seqZ in He. split; [lia|].
  apply lookup_lt_is_Some. rewrite length_shifted, Hlen. lia.
Qed.

Lemma z_idx_within_uploaded_sequence_witness :
  ∃ b c_end h_end,
    notebook sequenced_acquire params_Q (idle_core 7%Q, ∅)
    = Some (b, (c_end, h_end))
    ∧ count_z_positions (start_end_pos params_Q) (mid_pos params_Q)
        (step_size params_Q)
      = Some (num_z_positions0 b)
    ∧ h_end !! z_idx b = Some (range (num_z_positions0 b))
    ∧ num_z_positions b = Z.of_nat (length (pos_sequence b))
    ∧ 1 ≤ num_z_positions0 b
    ∧ 2 * num_z_positions0 b ≤ num_z_positions b
    ∧ ∀ e, e ∈ events b →
        0 ≤ z e < num_z_positions0 b
        ∧ is_Some (pos_sequence b !! Z.to_nat (z e)).
Proof.
  apply z_idx_within_uploaded_sequence;
    [reflexivity | reflexivity | intros; eexists; reflexivity].
Defined.

(** In exact arithmetic too, on the notebook's own parameters [z_idx] is
    [0 .. 20] while 42 positions are uploaded, and no event has a z index
    from 21 on. *)
Lemma z_idx_not_whole_sequence :
  ¬ (∃ b c_end h_end,
       notebook sequenced_acquire params_Q (idle_core 0%Q, ∅)
       = Some (b, (c_end, h_end))
       ∧ num_z_positions b = Z.of_nat (length (pos_sequence b))
       ∧ h_end !! z_idx b = Some (range (num_z_positions b))
       ∧ (∀ e, e ∈ events b → 0 ≤ z e < num_z_positions b)
       ∧ (∀ k, 0 ≤ k < num_z_positions b → ∃ e, e ∈ events b ∧ z e = k)).
Proof.
  intros (b & c_end & h_end & Hrun & _ & Hz & _).
  vm_compute in Hrun. injection Hrun as <- <- <-.
  vm_compute in Hz. discriminate.
Qed.

(** ** Runs on the notebook's parameters *)

Lemma absolute_mode_resets_to_zero_witness :
  (∃ seq c' new,
     upload_piezo_sequence (start_end_pos absolute_params_Q)
       (mid_pos absolute_params_Q) (step_size absolute_params_Q) false
       (idle_core 7%Q)
     = Some ((of_int 0, seq), c')
     ∧ calls c' = calls (idle_core 7%Q) ++ new
     ∧ Forall (λ k, is_position_query k = false) new
     ∧ stage_position c' = stage_position (idle_core 7%Q))
  ∧ ∃ b c_end h_end,
      notebook sequenced_acquire absolute_params_Q (idle_core 7%Q, ∅)
      = Some (b, (c_end, h_end))
      ∧ z_pos b = of_int 0
      ∧ last (calls c_end) = Some (SetPosition (z_stage b) (of_int 0))
      ∧ stage_position c_end = of_int 0.
Proof.
  eapply (absolute_mode_resets_to_zero sequenced_acquire absolute_params_Q
            (idle_core 7%Q) ∅ 21 20);
    [reflexivity | intros; eexists; reflexivity
    | vm_compute; reflexivity | vm_compute; reflexivity
    | vm_compute; reflexivity].
Defined.

(** On the notebook's parameters binary64 computes exactly: the float run
    gives the sequence and the counts of the run in exact arithmetic. *)
Lemma binary64_run_is_exact :
  fmap (M:=list) (λ f, Qred <$> F64toQ f)
    <$> triangle (-2.5)%float 2.5%float 0.25%float
  = fmap (M:=list) (λ q, Some (Qred q))
      <$> triangle (-5#2)%Q (5#2)%Q (1#4)%Q
  ∧ count_z_positions (-2.5)%float 2.5%float 0.25%float
    = count_z_positions (-5#2)%Q (5#2)%Q (1#4)%Q
  ∧ count_time_points (A:=float) 2 200 21 = count_time_points (A:=Q) 2 200 21
  ∧ count_time_points (A:=Q) 2 200 21 = Some 20.
Proof. repeat split; vm_compute; reflexivity. Qed.

(** The notebook as it stands (relative mode, stage at 7): 21 z indices,
    20 time points, 42 uploaded positions, 420 events, and the stage back
    at 7 when it ends. *)
Lemma notebook_run_on_parameters :
  (λ r, (num_z_positions0 r.1, num_time_points r.1, num_z_positions r.1,
         length (events r.1), Qred (z_pos r.1), Qred (stage_position r.2.1)))
    <$> notebook sequenced_acquire params_Q (idle_core 7%Q, ∅)
  = Some (21, 20, 42, 420%nat, 7%Q, 7%Q).
Proof. vm_compute. reflexivity. Qed.

(** On that run the stage, stepping through the 42 uploaded positions once
    per event, is at the position of the event's z plane at every one of the
    420 events: the k-th event finds the stage at position [k mod 42] of
    the sequence, which is the position at index [z]. *)
Lemma events_follow_waveform :
  (λ r, forallb
          (λ k, match pos_sequence r.1 !! (k `mod` 42)%nat,
                      events r.1 !! k with
                | Some at_trigger, Some e =>
                    match pos_sequence r.1 !! Z.to_nat (z e) with
                    | Some plane => Qeq_bool at_trigger plane
                    | None => false
                    end
                | _, _ => false
                end)
          (seq 0 420))
    <$> notebook sequenced_acquire params_Q (idle_core 7%Q, ∅)
  = Some true.
Proof. vm_compute. reflexivity. Qed.

(** * Further properties *)

(** ** The event list as a grid of time points and z planes *)

Lemma elem_of_sweep_iff (ts l : list Z) (e : event) :
  e ∈ sweep l ts ↔ time e ∈ ts ∧ z e ∈ l.
Proof.
  revert l. induction ts as [|t ts IH]; intros l; simpl.
  - rewrite !elem_of_nil. tauto.
  - rewrite elem_of_app, IH, list_elem_of_fmap, elem_of_cons, elem_of_reverse.
    split.
    + intros [(x & -> & Hx)|[Ht Hz]]; simpl; tauto.
    + intros [[Ht|Ht] Hz]; [left|right; tauto].
      exists (z e). destruct e as [te ze]. simpl in *. by subst.
Qed.

Lemma NoDup_sweep (ts l : list Z) :
  NoDup ts → NoDup l → NoDup (sweep l ts).
Proof.
  revert l. induction ts as [|t ts IH]; intros l Hts Hl; simpl.
  - constructor.
  - apply NoDup_cons in Hts as [Ht Hts]. apply NoDup_app. split; [|split].
    + apply NoDup_fmap_2; [|done]. by intros x y [= ->].
    + intros e (x & -> & _)%list_elem_of_fmap [Hin _]%elem_of_sweep_iff.
      done.
    + apply IH; [done|]. by rewrite reverse_Permutation.
Qed.

(** X1: over a [z_idx] without repeated items, the event list holds every
    pair of a time point in [0 .. num_time_points - 1] and an item of
    [z_idx], each exactly once, and nothing else. *)
Theorem events_cover_grid (h : heap) (z_idx : loc) (l : list Z)
    (num_time_points : Z) :
  h !! z_idx = Some l →
  NoDup l →
  ∃ events z_idx_ h',
    generate_events z_idx num_time_points h = Some ((events, z_idx_), h')
    ∧ NoDup events
    ∧ ∀ t j, Event t j ∈ events ↔ (0 ≤ t < num_time_points ∧ j ∈ l).
Proof.
  intros Hz Hl. rewrite (generate_events_run _ _ _ _ Hz).
  eexists _, _, _. split; [done|]. split.
  - apply NoDup_sweep; [apply NoDup_seqZ|done].
  - intros t j. rewrite elem_of_sweep_iff. unfold range.
    rewrite elem_of_seqZ. simpl. split; intros [? ?]; (split; [lia|done]).
Qed.

Lemma events_cover_grid_witness :
  ∃ events z_idx_ h',
    generate_events 1%positive 3 {[1%positive := [0; 1; 2; 3]]}
    = Some ((events, z_idx_), h')
    ∧ NoDup events
    ∧ ∀ t j, Event t j ∈ events ↔ (0 ≤ t < 3 ∧ j ∈ [0; 1; 2; 3]).
Proof.
  apply events_cover_grid; [reflexivity|].
  apply (bool_decide_unpack _). vm_compute. exact I.
Defined.

Lemma sweep_time_lookup (l : list Z) (T : Z) (k : nat) (e : event) :
  sweep l (range T) !! k = Some e →
  time e = Z.of_nat (k / length l).
Proof.
  intros Hk.
  assert (length l ≠ 0)%nat as HN.
  { intros H0. apply lookup_lt_Some in Hk.
    rewrite length_sweep, H0 in Hk. lia. }
  pose proof (Nat.div_mod_eq k (length l)) as Hd.
  pose proof (Nat.mod_upper_bound k (length l) HN) as Hj.
  rewrite Hd in Hk at 1.
  replace (length l * (k / length l) + k `mod` length l)%nat
    with ((k / length l) * length l + k `mod` length l)%nat in Hk by lia.
  rewrite sweep_lookup in Hk by done.
  unfold range in Hk.
  destruct (seqZ 0 T !! (k / length l)%nat) as [t|] eqn:Et; [|done].
  apply lookup_seqZ in Et as [-> _]. simpl in Hk.
  destruct (Nat.iter (k / length l) reverse l !! (k `mod` length l)%nat);
    [|done].
  simpl in Hk. injection Hk as <-. simpl. lia.
Qed.

(** X2: the events are in time order: an event that comes later in the
    list never has an earlier time point. *)
Theorem events_in_time_order (h : heap) (z_idx : loc) (l : list Z)
    (num_time_points : Z) :
  h !! z_idx = Some l →
  ∃ events z_idx_ h',
    generate_events z_idx num_time_points h = Some ((events, z_idx_), h')
    ∧ ∀ (i j : nat) (e1 e2 : event),
        (i ≤ j)%nat → events !! i = Some e1 → events !! j = Some e2 →
        time e1 ≤ time e2.
Proof.
  intros Hz. rewrite (generate_events_run _ _ _ _ Hz).
  eexists _, _, _. split; [done|].
  intros i j e1 e2 Hij H1 H2.
  rewrite (sweep_time_lookup _ _ _ _ H1), (sweep_time_lookup _ _ _ _ H2).
  apply inj_le. by apply Nat.Div0.div_le_mono.
Qed.

Lemma events_in_time_order_witness :
  ∃ events z_idx_ h',
    generate_events 1%positive 3 {[1%positive := [5; 2; 9]]}
    = Some ((events, z_idx_), h')
    ∧ ∀ (i j : nat) (e1 e2 : event),
        (i ≤ j)%nat → events !! i = Some e1 → events !! j = Some e2 →
        time e1 ≤ time e2.
Proof. apply (events_in_time_order _ _ [5; 2; 9]). reflexivity. Defined.

(** X3: a count of time points that is zero or negative, or an empty
    [z_idx], gives an empty event list: the cell does not raise, and
    [z_idx] keeps its items. *)
Theorem events_empty (h : heap) (z_idx : loc) (l : list Z)
    (num_time_points : Z) :
  h !! z_idx = Some l →
  num_time_points ≤ 0 ∨ l = [] →
  ∃ z_idx_ h',
    generate_events z_idx num_time_points h = Some (([], z_idx_), h')
    ∧ h' !! z_idx = Some l.
Proof.
  intros Hz Hempty. rewrite (generate_events_run _ _ _ _ Hz).
  assert (sweep l (range num_time_points) = []) as ->.
  { apply nil_length_inv. rewrite length_sweep. unfold range.
    rewrite length_seqZ. destruct Hempty as [Hn| ->]; simpl; lia. }
  eexists _, _. split; [done|].
  rewrite lookup_insert_ne; [done|].
  intros Heq. pose proof (fresh_loc_unused h) as Hf. congruence.
Qed.

Lemma events_empty_witness :
  ∃ z_idx_ h',
    generate_events 1%positive (-2) {[1%positive := [0; 1; 2]]}
    = Some (([], z_idx_), h')
    ∧ h' !! 1%positive = Some [0; 1; 2].
Proof. apply events_empty; [reflexivity | left; lia]. Defined.

(** ** What an upload leaves on the core *)

(** X4: when [upload_piezo_sequence] returns, the stage holds exactly the
    returned sequence, with [UseSequence] at "Yes" and [UseFastSequence] at
    "Armed"; the sequence was loaded while fast sequencing was off and armed
    after, as the last three calls; and no call moved the stage, which is
    where it was. *)
Theorem upload_arms_sequence {A : Type} `{Scalar A}
    (start_end_pos mid_pos step_size : A) (relative : bool)
    (c c' : core A) (z_pos : A) (pos_sequence : list A) :
  upload_piezo_sequence start_end_pos mid_pos step_size relative c
  = Some ((z_pos, pos_sequence), c') →
  stage_sequence c' = pos_sequence
  ∧ properties c' !! (focus_device c, "UseSequence") = Some (PStr "Yes")
  ∧ properties c' !! (focus_device c, "UseFastSequence")
    = Some (PStr "Armed")
  ∧ stage_position c' = stage_position c
  ∧ ∃ new before,
      calls c' = calls c ++ new
      ∧ new = before
              ++ [SetProperty (focus_device c) "UseFastSequence" (PStr "No");
                  LoadStageSequence (focus_device c) pos_sequence;
                  SetProperty (focus_device c) "UseFastSequence"
                    (PStr "Armed")]
      ∧ ∀ dev pos, SetPosition dev pos ∉ new.
Proof.
  rewrite upload_piezo_sequence_run.
  destruct (triangle start_end_pos mid_pos step_size) as [seq|]; [|done].
  simpl. intros [= <- <- <-]. simpl.
  split; [done|]. split.
  { rewrite lookup_insert_ne by done. rewrite lookup_insert_ne by done.
    apply lookup_insert_eq. }
  split; [apply lookup_insert_eq|]. split; [done|].
  exists (upload_calls relative c seq),
    ([GetFocusDevice (focus_device c)]
     ++ (if relative
         then [GetPosition (focus_device c) (stage_position c)] else [])
     ++ [SetProperty (focus_device c) "UseSequence" (PStr "Yes")]).
  split; [done|]. split.
  - unfold upload_calls. simpl. by destruct relative.
  - intros dev pos. unfold upload_calls.
    rewrite !elem_of_app, !elem_of_cons, elem_of_nil.
    destruct relative; rewrite ?elem_of_cons, ?elem_of_nil;
      intros Hin; decompose [or] Hin; done.
Qed.

Lemma upload_arms_sequence_witness :
  stage_sequence (uploaded false (idle_core 7%Q) [0; 1; 1; 0]%Q)
  = [0; 1; 1; 0]%Q
  ∧ properties (uploaded false (idle_core 7%Q) [0; 1; 1; 0]%Q)
      !! (focus_device (idle_core 7%Q), "UseSequence")
    = Some (PStr "Yes")
  ∧ properties (uploaded false (idle_core 7%Q) [0; 1; 1; 0]%Q)
      !! (focus_device (idle_core 7%Q), "UseFastSequence")
    = Some (PStr "Armed")
  ∧ stage_position (uploaded false (idle_core 7%Q) [0; 1; 1; 0]%Q)
    = stage_position (idle_core 7%Q)
  ∧ ∃ new before,
      calls (uploaded false (idle_core 7%Q) [0; 1; 1; 0]%Q)
      = calls (idle_core 7%Q) ++ new
      ∧ new = before
              ++ [SetProperty (focus_device (idle_core 7%Q))
                    "UseFastSequence" (PStr "No");
                  LoadStageSequence (focus_device (idle_core 7%Q))
                    [0; 1; 1; 0]%Q;
                  SetProperty (focus_device (idle_core 7%Q))
                    "UseFastSequence" (PStr "Armed")]
      ∧ ∀ dev pos, SetPosition dev pos ∉ new.
Proof.
  apply (upload_arms_sequence 0%Q 1%Q 1%Q false (idle_core 7%Q)
           (uploaded false (idle_core 7%Q) [0; 1; 1; 0]%Q) 0%Q
           [0; 1; 1; 0]%Q).
  vm_compute. reflexivity.
Defined.

(** ** The notebook around the acquisition *)

(** The run up to the acquisition, and from it to the end: the engine gets
    the events and a core [c_pre]; what it returns goes through the reset
    cell. *)
Lemma notebook_stages {A : Type} `{Scalar A} (p : params A) (c : core A)
    (h : heap) (n0 T : Z) (first : A) (rest : list A) :
  count_z_positions (start_end_pos p) (mid_pos p) (step_size p) = Some n0 →
  count_time_points (duration p) (framerate p) n0 = Some T →
  triangle (start_end_pos p) (mid_pos p) (step_size p)
  = Some (first :: rest) →
  ∃ c_pre h_end z_idx_,
    (∀ acquire : list event → M (core A) unit,
       notebook acquire p (c, h)
       = match acquire (sweep (range n0) (range T)) c_pre with
         | None => None
         | Some (_, c_acq) =>
             Some (Bindings n0 (fresh (dom h)) T (focus_device c)
                     (offset_of (relative p) c)
                     (shifted (relative p) c (first :: rest))
                     (Z.of_nat
                        (length (shifted (relative p) c (first :: rest))))
                     (sweep (range n0) (range T)) z_idx_,
                   (Core (focus_device c_acq) (offset_of (relative p) c)
                      (<[(focus_device c, "UseSequence") := PStr "No"]>
                         (<[(focus_device c, "UseFastSequence")
                            := PStr "No"]> (properties c_acq)))
                      (stage_sequence c_acq) (exposure c_acq) (roi c_acq)
                      (calls c_acq
                       ++ [SetProperty (focus_device c) "UseFastSequence"
                             (PStr "No");
                           SetProperty (focus_device c) "UseSequence"
                             (PStr "No");
                           SetPosition (focus_device c)
                             (offset_of (relative p) c)]),
                    h_end))
         end)
    ∧ shifted (relative p) c (first :: rest) !! 0%nat
      = Some (stage_position c_pre)
    ∧ stage_sequence c_pre = shifted (relative p) c (first :: rest)
    ∧ properties c_pre !! (focus_device c, "UseSequence")
      = Some (PStr "Yes")
    ∧ properties c_pre !! (focus_device c, "UseFastSequence")
      = Some (PStr "Armed")
    ∧ properties c_pre !! ("Camera", "Framerate")
      = Some (PInt (framerate p))
    ∧ exposure c_pre = exposure_time p
    ∧ roi c_pre = ROI p
    ∧ last (calls c_pre)
      = Some (SetPosition (focus_device c) (stage_position c_pre)).
Proof.
  intros Hn0 HT Htri.
  destruct (ROI p) as [[[x y] w] hh] eqn:Hroi.
  destruct (relative p) eqn:Hrel.
  all: eexists ?[cpre], _, _; split;
    [ intros acquire; unfold notebook, on_core, on_heap; run_monad;
      rewrite Hn0; simpl; rewrite HT; simpl; rewrite Hroi; simpl;
      rewrite upload_piezo_sequence_run, Htri, Hrel;
      unfold offset_of, shifted, uploaded, upload_calls, record; simpl;
      rewrite (generate_events_run _ _ (range n0)) by apply lookup_insert_eq;
      simpl;
      match goal with
      | |- context [option_bind _ _ _ (acquire ?e ?c0)] =>
          instantiate (cpre := c0);
          destruct (acquire e c0) as [[[] c_acq]|]; simpl;
          [rewrite <- !app_assoc; reflexivity | reflexivity]
      end
    | simpl ].
  all: split; [done|]; split; [done|].
  all: split;
    [rewrite lookup_insert_ne by done; rewrite lookup_insert_ne by done;
     apply lookup_insert_eq|].
  all: split; [apply lookup_insert_eq|].
  all: split;
    [rewrite !lookup_insert_ne by (intros [= _ ?]; done);
     apply lookup_insert_eq|].
  all: split; [done|]; split; [done|]; by rewrite last_snoc.
Qed.

(** X5: when the parameter cell and the upload do not raise and the
    sequence has a first position, the acquisition engine is handed the generated events and a core whose
    stage is at the first position of the sequence, with the sequence
    loaded and armed, the exposure, region of interest and frame rate set.
    If the engine raises, so does the notebook; if it returns, the notebook
    runs to its end. *)
Theorem acquisition_starts_armed {A : Type} `{Scalar A} (p : params A)
    (c : core A) (h : heap) (n0 T : Z) (first : A) (rest : list A) :
  count_z_positions (start_end_pos p) (mid_pos p) (step_size p) = Some n0 →
  count_time_points (duration p) (framerate p) n0 = Some T →
  triangle (start_end_pos p) (mid_pos p) (step_size p)
  = Some (first :: rest) →
  ∃ c_pre,
    shifted (relative p) c (first :: rest) !! 0%nat
    = Some (stage_position c_pre)
    ∧ stage_sequence c_pre = shifted (relative p) c (first :: rest)
    ∧ properties c_pre !! (focus_device c, "UseSequence")
      = Some (PStr "Yes")
    ∧ properties c_pre !! (focus_device c, "UseFastSequence")
      = Some (PStr "Armed")
    ∧ properties c_pre !! ("Camera", "Framerate")
      = Some (PInt (framerate p))
    ∧ exposure c_pre = exposure_time p
    ∧ roi c_pre = ROI p
    ∧ ∀ acquire : list event → M (core A) unit,
        match acquire (sweep (range n0) (range T)) c_pre with
        | None => notebook acquire p (c, h) = None
        | Some _ =>
            ∃ b c_end h_end,
              notebook acquire p (c, h) = Some (b, (c_end, h_end))
              ∧ events b = sweep (range n0) (range T)
              ∧ pos_sequence b = shifted (relative p) c (first :: rest)
        end.
Proof.
  intros Hn0 HT Htri.
  destruct (notebook_stages p c h n0 T first rest Hn0 HT Htri)
    as (c_pre & h_end & r & Hrun & Hfirst & Hseq & Hus & Hfs & Hfr & Hex
        & Hroi & _).
  exists c_pre. do 7 (split; [done|]).
  intros acquire. rewrite (Hrun acquire).
  destruct (acquire (sweep (range n0) (range T)) c_pre) as [[_ c_acq]|];
    [|done].
  by eexists _, _, _.
Qed.

Lemma acquisition_starts_armed_witness :
  let p := Params "C:\test" "pycromanager test" 0%float 1%float 1%float
             false 2 3 200 (924, 770, 616, 514) in
  let c := idle_core 7%float in
  ∃ c_pre : core float,
    shifted (relative p) c [0; 1; 1; 0]%float !! 0%nat
    = Some (stage_position c_pre)
    ∧ stage_sequence c_pre = shifted (relative p) c [0; 1; 1; 0]%float
    ∧ properties c_pre !! (focus_device c, "UseSequence")
      = Some (PStr "Yes")
    ∧ properties c_pre !! (focus_device c, "UseFastSequence")
      = Some (PStr "Armed")
    ∧ properties c_pre !! ("Camera", "Framerate")
      = Some (PInt (framerate p))
    ∧ exposure c_pre = exposure_time p
    ∧ roi c_pre = ROI p
    ∧ ∀ acquire : list event → M (core float) unit,
        match acquire (sweep (range 2) (range 200)) c_pre with
        | None => notebook acquire p (c, ∅) = None
        | Some _ =>
            ∃ b c_end h_end,
              notebook acquire p (c, ∅) = Some (b, (c_end, h_end))
              ∧ events b = sweep (range 2) (range 200)
              ∧ pos_sequence b = shifted (relative p) c [0; 1; 1; 0]%float
        end.
Proof.
  intros p c.
  apply (acquisition_starts_armed p c ∅ 2 200 0%float [1; 1; 0]%float);
    vm_compute; reflexivity.
Defined.

(** X6: when the notebook runs to its end, the reset cell has switched
    [UseFastSequence] and [UseSequence] to "No" and its last call has moved
    the stage to [z_pos]; in relative mode that is where the stage was
    before the run. *)
Theorem reset_turns_sequencing_off {A : Type} `{Scalar A}
    (acquire : list event → M (core A) unit) (p : params A)
    (c : core A) (h : heap) (n0 T : Z) (first : A) (rest : list A) :
  (∀ events c, is_Some (acquire events c)) →
  count_z_positions (start_end_pos p) (mid_pos p) (step_size p) = Some n0 →
  count_time_points (duration p) (framerate p) n0 = Some T →
  triangle (start_end_pos p) (mid_pos p) (step_size p)
  = Some (first :: rest) →
  ∃ b c_end h_end,
    notebook acquire p (c, h) = Some (b, (c_end, h_end))
    ∧ properties c_end !! (z_stage b, "UseFastSequence") = Some (PStr "No")
    ∧ properties c_end !! (z_stage b, "UseSequence") = Some (PStr "No")
    ∧ last (calls c_end) = Some (SetPosition (z_stage b) (z_pos b))
    ∧ stage_position c_end = z_pos b
    ∧ (relative p = true → stage_position c_end = stage_position c).
Proof.
  intros Hacq Hn0 HT Htri.
  destruct (notebook_stages p c h n0 T first rest Hn0 HT Htri)
    as (c_pre & h_end & r & Hrun & _).
  rewrite (Hrun acquire).
  destruct (Hacq (sweep (range n0) (range T)) c_pre) as [[[] c_acq] ->].
  eexists _, _, _. split; [done|]. simpl.
  split; [rewrite lookup_insert_ne by done; apply lookup_insert_eq|].
  split; [apply lookup_insert_eq|].
  split; [by rewrite last_app|]. split; [done|].
  by intros ->.
Qed.

Lemma reset_turns_sequencing_off_witness :
  ∃ b c_end h_end,
    notebook sequenced_acquire params_Q (idle_core 7%Q, ∅)
    = Some (b, (c_end, h_end))
    ∧ properties c_end !! (z_stage b, "UseFastSequence") = Some (PStr "No")
    ∧ properties c_end !! (z_stage b, "UseSequence") = Some (PStr "No")
    ∧ last (calls c_end) = Some (SetPosition (z_stage b) (z_pos b))
    ∧ stage_position c_end = z_pos b
    ∧ (relative params_Q = true
       → stage_position c_end = stage_position (idle_core 7%Q)).
Proof.
  eapply (reset_turns_sequencing_off sequenced_acquire params_Q
            (idle_core 7%Q) ∅ 21 20);
    [intros; eexists; reflexivity | vm_compute; reflexivity
    | vm_compute; reflexivity | vm_compute; reflexivity].
Defined.

(** ** The waveform as a cycle *)

Lemma ceiling_steps_bounds (s m st : Q) :
  (s < m)%Q → (0 < st)%Q →
  (m - s <= inject_Z (Qceiling ((m - s) / st)) * st)%Q
  ∧ (inject_Z (Qceiling ((m - s) / st)) * st < m - s + st)%Q.
Proof.
  intros Hsm Hst.
  pose proof (Qle_ceiling ((m - s) / st)) as Hc1.
  pose proof (Qceiling_lt ((m - s) / st)) as Hc2.
  assert ((m - s) / st * st == m - s)%Q as Hd by (field; lra).
  unfold Z.sub in Hc2. rewrite inject_Z_plus in Hc2.
  change (inject_Z (Z.opp 1)) with (-1)%Q in Hc2.
  set (d := ((m - s) / st)%Q) in *.
  set (k := inject_Z (Qceiling d)) in *.
  clearbody k. clearbody d. split; nra.
Qed.

(** In exact arithmetic, for [start_end_pos < mid_pos] and a positive
    [step_size], the stage never has to move by more than one step between
    two positions that follow each other in the uploaded sequence, the
    turn at the top and the wrap from the last position to the first
    included. *)
Theorem waveform_steps_bounded (s m st : Q) :
  (s < m)%Q → (0 < st)%Q →
  ∃ seq : list Q,
    triangle s m st = Some seq
    ∧ ∀ (i : nat) (a b : Q),
        seq !! i = Some a →
        seq !! (S i `mod` length seq)%nat = Some b →
        (Qabs (b - a) <= st)%Q.
Proof.
  intros Hsm Hst.
  destruct (triangle_Q s m st Hsm Hst) as (_ & _ & Htri).
  pose proof (steps_positive s m st Hsm Hst) as Hc.
  destruct (ceiling_steps_bounds s m st Hsm Hst) as [Hlo Hhi].
  set (c := Qceiling ((m - s) / st)) in *.
  set (up := arange_item s st <$> range (c + 1)) in *.
  set (down := arange_item m (- st)%Q <$> range (c + 1)) in *.
  set (N := Z.to_nat (c + 1)).
  assert (length up = N) as Hlu
    by (unfold up, range; by rewrite length_fmap, length_seqZ).
  assert (length down = N) as Hld
    by (unfold down, range; by rewrite length_fmap, length_seqZ).
  exists (up ++ down). split; [done|].
  intros i a b Ha Hb. rewrite length_app, Hlu, Hld in Hb.
  assert (i < N + N)%nat as Hi.
  { apply lookup_lt_Some in Ha. rewrite length_app in Ha. lia. }
  apply Qabs_Qle_condition.
  destruct (decide (S i < N)%nat) as [H1|H1].
  - (* two items of the ascending run *)
    rewrite Nat.mod_small in Hb by lia.
    rewrite lookup_app_l in Ha, Hb by lia.
    apply arange_Q_lookup in Ha as [_ Ha]. apply arange_Q_lookup in Hb as [_ Hb].
    rewrite Nat2Z.inj_succ in Hb. unfold Z.succ in Hb.
    rewrite inject_Z_plus in Hb. change (inject_Z 1) with 1%Q in Hb.
    rewrite Ha, Hb. split; nra.
  - destruct (decide (S i = N)) as [H2|H2].
    + (* the turn at the top *)
      rewrite Nat.mod_small in Hb by lia.
      rewrite lookup_app_l in Ha by lia.
      rewrite lookup_app_r in Hb by lia.
      apply arange_Q_lookup in Ha as [_ Ha].
      apply arange_Q_lookup in Hb as [_ Hb].
      replace (Z.of_nat i) with c in Ha by lia.
      replace (Z.of_nat (S i - length up)) with 0 in Hb by lia.
      change (inject_Z 0) with 0%Q in Hb.
      rewrite Ha, Hb. split; nra.
    + destruct (decide (S i < N + N)%nat) as [H3|H3].
      * (* two items of the descending run *)
        rewrite Nat.mod_small in Hb by lia.
        rewrite lookup_app_r in Ha, Hb by lia.
        apply arange_Q_lookup in Ha as [_ Ha].
        apply arange_Q_lookup in Hb as [_ Hb].
        replace (Z.of_nat (S i - length up))
          with (Z.of_nat (i - length up) + 1) in Hb by lia.
        rewrite inject_Z_plus in Hb. change (inject_Z 1) with 1%Q in Hb.
        rewrite Ha, Hb. split; nra.
      * (* the wrap from the last position to the first *)
        replace (S i) with (N + N)%nat in Hb by lia.
        rewrite Nat.Div0.mod_same in Hb.
        rewrite lookup_app_r in Ha by lia.
        rewrite lookup_app_l in Hb by lia.
        apply arange_Q_lookup in Ha as [_ Ha].
        apply arange_Q_lookup in Hb as [_ Hb].
        replace (Z.of_nat (i - length up)) with c in Ha by lia.
        change (inject_Z (Z.of_nat 0)) with 0%Q in Hb.
        rewrite Ha, Hb. split; nra.
Qed.

Lemma waveform_steps_bounded_witness :
  ∃ seq : list Q,
    triangle (-5#2)%Q (5#2)%Q (1#4)%Q = Some seq
    ∧ ∀ (i : nat) (a b : Q),
        seq !! i = Some a →
        seq !! (S i `mod` length seq)%nat = Some b →
        (Qabs (b - a) <= 1#4)%Q.
Proof. apply waveform_steps_bounded; reflexivity. Defined.

(** ** The z indices against the two runs *)

Lemma Qceiling_not_integer (x : Q) :
  ¬ (x == inject_Z (Qfloor x))%Q → Qceiling x = Qfloor x + 1.
Proof.
  intros Hx. pose proof (Qfloor_le x) as Hf1. pose proof (Qlt_floor x) as Hf2.
  apply Qceiling_unique.
  - replace (Qfloor x + 1 - 1) with (Qfloor x) by lia.
    apply Qle_lteq in Hf1 as [Hlt|Heq]; [done|]. destruct Hx. by symmetry.
  - by apply Qlt_le_weak.
Qed.

Lemma exact_steps_floor (s m st : Q) (k : Z) :
  (0 < st)%Q → (m - s == inject_Z k * st)%Q → Qfloor ((m - s) / st) = k.
Proof.
  intros Hst Hk. rewrite <- (Qfloor_Z k). apply Qfloor_comp.
  rewrite Hk. field. lra.
Qed.

(** In exact arithmetic, for [start_end_pos < mid_pos] and a positive
    [step_size], the uploaded sequence has exactly two positions per z
    index when [step_size] divides [mid_pos - start_end_pos], and two
    positions more than that when it does not: each run then has one
    position more than there are z indices. *)
Theorem sequence_length_and_z_count (s m st : Q) :
  (s < m)%Q → (0 < st)%Q →
  ∃ (n0 : Z) (seq : list Q),
    count_z_positions s m st = Some n0
    ∧ triangle s m st = Some seq
    ∧ ((∃ k : Z, (m - s == inject_Z k * st)%Q) →
       Z.of_nat (length seq) = 2 * n0)
    ∧ (¬ (∃ k : Z, (m - s == inject_Z k * st)%Q) →
       Z.of_nat (length seq) = 2 * n0 + 2).
Proof.
  intros Hsm Hst.
  destruct (triangle_Q s m st Hsm Hst) as (_ & _ & Htri).
  pose proof (steps_positive s m st Hsm Hst) as Hc.
  eexists _, _. split; [by apply count_z_positions_Q|]. split; [exact Htri|].
  unfold range. rewrite length_app, !length_fmap, !length_seqZ.
  split.
  - intros [k Hk].
    rewrite (exact_steps s m st k Hst Hk) in *.
    rewrite (exact_steps_floor s m st k Hst Hk). lia.
  - intros Hnone. rewrite Qceiling_not_integer; [|].
    + assert (0 ≤ Qfloor ((m - s) / st)); [|lia].
      assert (0 < (m - s) / st)%Q as Hd by (apply Qlt_shift_div_l; lra).
      change 0 with (Qfloor 0). apply Qfloor_resp_le. lra.
    + intros Heq. destruct Hnone. exists (Qfloor ((m - s) / st)).
      rewrite <- Heq. field. lra.
Qed.

Lemma sequence_length_and_z_count_witness :
  ∃ (n0 : Z) (seq : list Q),
    count_z_positions 0%Q 1%Q (3#10)%Q = Some n0
    ∧ triangle 0%Q 1%Q (3#10)%Q = Some seq
    ∧ ((∃ k : Z, (1 - 0 == inject_Z k * (3#10))%Q) →
       Z.of_nat (length seq) = 2 * n0)
    ∧ (¬ (∃ k : Z, (1 - 0 == inject_Z k * (3#10))%Q) →
       Z.of_nat (length seq) = 2 * n0 + 2).
Proof. apply sequence_length_and_z_count; reflexivity. Defined.

(** With a step of 0.3 from 0 to 1 there are 4 z indices and two runs of 5
    positions. *)
Lemma uneven_step_run :
  count_z_positions 0%Q 1%Q (3#10)%Q = Some 4
  ∧ fmap (M:=list) Qred <$> triangle 0%Q 1%Q (3#10)%Q
    = Some [0#1; 3#10; 3#5; 9#10; 6#5; 1#1; 7#10; 2#5; 1#10; -1#5]%Q.
Proof. split; vm_compute; reflexivity. Qed.

(** In exact arithmetic, when [step_size] divides
    [mid_pos - start_end_pos] (both positive), the events keep step with the uploaded
    sequence: the position at the k-th place of the sequence, counted
    cyclically, is the position at the index the k-th event gives as z. *)
Theorem events_match_positions (s m st : Q) (k0 : Z) :
  (s < m)%Q → (0 < st)%Q →
  (m - s == inject_Z k0 * st)%Q →
  ∃ (n0 : Z) (seq : list Q),
    count_z_positions s m st = Some n0
    ∧ triangle s m st = Some seq
    ∧ ∀ (h : heap) (z_idx : loc) (num_time_points : Z),
        h !! z_idx = Some (range n0) →
        ∃ events z_idx_ h',
          generate_events z_idx num_time_points h
          = Some ((events, z_idx_), h')
          ∧ ∀ (k : nat) (e : event),
              events !! k = Some e →
              ∃ a b : Q,
                seq !! (k `mod` length seq)%nat = Some a
                ∧ seq !! Z.to_nat (z e) = Some b
                ∧ (a == b)%Q.
Proof.
  intros Hsm Hst Hk0.
  destruct (triangle_Q s m st Hsm Hst) as (_ & _ & Htri).
  pose proof (steps_positive s m st Hsm Hst) as Hc.
  pose proof (count_z_positions_Q s m st Hsm Hst) as Hn0.
  rewrite (exact_steps s m st k0 Hst Hk0) in *.
  rewrite (exact_steps_floor s m st k0 Hst Hk0) in Hn0.
  set (up := arange_item s st <$> range (k0 + 1)) in *.
  set (down := arange_item m (- st)%Q <$> range (k0 + 1)) in *.
  set (N := Z.to_nat (k0 + 1)).
  assert (length up = N) as Hlu
    by (unfold up, range; by rewrite length_fmap, length_seqZ).
  assert (length down = N) as Hld
    by (unfold down, range; by rewrite length_fmap, length_seqZ).
  exists (k0 + 1), (up ++ down). split; [done|]. split; [done|].
  intros h z_idx T Hz. rewrite (generate_events_run _ _ _ _ Hz).
  eexists _, _, _. split; [done|].
  intros k e Hk. rewrite length_app, Hlu, Hld.
  pose proof (Nat.div_mod_eq k N) as Hd.
  pose proof (Nat.mod_upper_bound k N ltac:(lia)) as Hj.
  set (q := (k / N)%nat) in *. set (j := (k `mod` N)%nat) in *.
  replace k with (q * N + j)%nat in Hk by lia.
  pose proof (sweep_range_lookup (k0 + 1) T q j Hj) as Hat.
  fold N in Hat. rewrite Hat in Hk.
  case_decide as Hq; [|done]. injection Hk as <-. simpl.
  assert (∀ i : nat, (i < N)%nat →
            up !! i = Some (arange_item s st (Z.of_nat i))) as Hup.
  { intros i Hi. unfold up, range.
    rewrite list_lookup_fmap, lookup_seqZ_lt by lia. done. }
  assert (∀ i : nat, (i < N)%nat →
            down !! i = Some (arange_item m (- st)%Q (Z.of_nat i))) as Hdown.
  { intros i Hi. unfold down, range.
    rewrite list_lookup_fmap, lookup_seqZ_lt by lia. done. }
  destruct (Nat.even q) eqn:Eq.
  - apply Nat.even_spec in Eq as [r Hr].
    assert (k `mod` (N + N) = j)%nat as ->.
    { symmetry. apply (Nat.mod_unique _ _ r); lia. }
    rewrite Nat2Z.id, lookup_app_l by lia.
    eexists _, _. split; [by apply Hup|]. split; [by apply Hup|]. reflexivity.
  - assert (Nat.odd q = true) as Eo by (by rewrite <- Nat.negb_even, Eq).
    apply Nat.odd_spec in Eo as [r Hr].
    assert (k `mod` (N + N) = N + j)%nat as ->.
    { symmetry. apply (Nat.mod_unique _ _ r); lia. }
    rewrite lookup_app_r by lia. rewrite lookup_app_l by lia.
    eexists _, _.
    split; [apply Hdown; lia|]. split; [apply Hup; lia|].
    rewrite !arange_item_Q.
    replace (Z.of_nat (N + j - length up)) with (Z.of_nat j) by lia.
    replace (Z.of_nat (Z.to_nat (k0 + 1 - 1 - Z.of_nat j)))
      with (k0 + - Z.of_nat j) by lia.
    rewrite inject_Z_plus, inject_Z_opp.
    set (x := inject_Z (Z.of_nat j)). set (y := inject_Z k0) in *.
    clearbody x. clearbody y. lra.
Qed.

Lemma events_match_positions_witness :
  ∃ (n0 : Z) (seq : list Q),
    count_z_positions (-5#2)%Q (5#2)%Q (1#4)%Q = Some n0
    ∧ triangle (-5#2)%Q (5#2)%Q (1#4)%Q = Some seq
    ∧ ∀ (h : heap) (z_idx : loc) (num_time_points : Z),
        h !! z_idx = Some (range n0) →
        ∃ events z_idx_ h',
          generate_events z_idx num_time_points h
          = Some ((events, z_idx_), h')
          ∧ ∀ (k : nat) (e : event),
              events !! k = Some e →
              ∃ a b : Q,
                seq !! (k `mod` length seq)%nat = Some a
                ∧ seq !! Z.to_nat (z e) = Some b
                ∧ (a == b)%Q.
Proof. apply (events_match_positions _ _ _ 20); reflexivity. Defined.

(** ** A waveform with no positions *)

Lemma arange_Q_empty (start stop step : Q) :
  ¬ (step == 0)%Q → ((stop - start) / step <= 0)%Q →
  arange start stop step = Some [].
Proof.
  intros Hstep Hle. rewrite arange_Q by done.
  assert (Qceiling ((stop - start) / step) ≤ 0) as Hc.
  { change 0 with (Qceiling 0). by apply Qceiling_resp_le. }
  unfold range. by rewrite seqZ_nil.
Qed.

(** In exact arithmetic, when [mid_pos + step_size] does not exceed
    [start_end_pos] (with a positive step), both runs are empty: the upload does
    not raise, it loads and arms a sequence of no positions, and the
    notebook then raises at [pos_sequence[0]], whatever the acquisition
    engine is. *)
Theorem empty_waveform_raises (p : params Q) (c : core Q) (h : heap) :
  (0 < step_size p)%Q →
  (mid_pos p + step_size p <= start_end_pos p)%Q →
  triangle (start_end_pos p) (mid_pos p) (step_size p) = Some []
  ∧ upload_piezo_sequence (start_end_pos p) (mid_pos p) (step_size p)
      (relative p) c
    = Some ((offset_of (relative p) c, []), uploaded (relative p) c [])
  ∧ ∀ acquire : list event → M (core Q) unit,
      notebook acquire p (c, h) = None.
Proof.
  intros Hst Hle.
  set (s := start_end_pos p) in *. set (m := mid_pos p) in *.
  set (st := step_size p) in *.
  assert (triangle s m st = Some []) as Htri.
  { unfold triangle. cbn [fadd fsub fopp Q_scalar].
    rewrite !arange_Q_empty; [done| | | |]; try lra.
    - apply Qle_shift_div_r; lra.
    - assert ((s - st - m) / - st == (m + st - s) / st)%Q as ->
        by (field; lra).
      apply Qle_shift_div_r; lra. }
  split; [done|]. split.
  { rewrite upload_piezo_sequence_run, Htri. simpl. by destruct (relative p). }
  intros acquire.
  assert (∃ n0, count_z_positions s m st = Some n0 ∧ n0 ≠ 0)
    as (n0 & Hn0 & Hne).
  { unfold count_z_positions.
    cbn [of_int fadd fsub fdiv fabs is_zero trunc Q_scalar].
    change (inject_Z 1) with 1%Q.
    destruct (Qeq_bool st 0) eqn:E; [apply Qeq_bool_eq in E; lra|].
    eexists. split; [done|]. unfold Qtrunc.
    pose proof (Qabs_nonneg (m - s)) as Habs.
    assert (0 <= Qabs (m - s) / st)%Q as Hd
      by (apply Qle_shift_div_l; lra).
    assert (Qle_bool 0 (Qabs (m - s) / st + 1) = true) as ->
      by (apply Qle_bool_iff; lra).
    assert (Qfloor 1 ≤ Qfloor (Qabs (m - s) / st + 1)) as Hf
      by (apply Qfloor_resp_le; lra).
    change (Qfloor 1) with 1 in Hf. lia. }
  destruct (count_time_points_Q (duration p) (framerate p) n0 Hne)
    as [T HT].
  unfold notebook, on_core, on_heap. run_monad.
  fold s m st. rewrite Hn0. simpl. rewrite HT. simpl.
  destruct (ROI p) as [[[x y] w] hh]. simpl.
  rewrite upload_piezo_sequence_run. fold s m st. rewrite Htri. simpl.
  by destruct (relative p).
Qed.

Lemma empty_waveform_raises_witness :
  let p := Params "C:\test" "pycromanager test" (5#2)%Q (-5#2)%Q (1#4)%Q
             true 2 3 200 (924, 770, 616, 514) in
  triangle (start_end_pos p) (mid_pos p) (step_size p) = Some []
  ∧ upload_piezo_sequence (start_end_pos p) (mid_pos p) (step_size p)
      (relative p) (idle_core 7%Q)
    = Some ((offset_of (relative p) (idle_core 7%Q), []),
            uploaded (relative p) (idle_core 7%Q) [])
  ∧ ∀ acquire : list event → M (core Q) unit,
      notebook acquire p (idle_core 7%Q, ∅) = None.
Proof.
  intros p. apply empty_waveform_raises;
    [reflexivity | vm_compute; discriminate].
Defined.

(** ** What else the cells leave alone *)

(** X12: the event cell changes no list object that was there before:
    every name bound to a list before the cell reads the same items after
    it, for any number of time points; its working copy [z_idx_] is an
    object that was not there before. *)
Theorem event_cell_frame (h : heap) (z_idx : loc) (l : list Z)
    (num_time_points : Z) :
  h !! z_idx = Some l →
  ∃ events z_idx_ h',
    generate_events z_idx num_time_points h = Some ((events, z_idx_), h')
    ∧ h !! z_idx_ = None
    ∧ ∀ (r : loc) (items : list Z), h !! r = Some items → h' !! r = Some items.
Proof.
  intros Hz. rewrite (generate_events_run _ _ _ _ Hz).
  eexists _, _, _. split; [done|].
  pose proof (fresh_loc_unused h) as Hf.
  split; [done|].
  intros r items Hr. rewrite lookup_insert_ne; [done|]. congruence.
Qed.

Lemma event_cell_frame_witness :
  ∃ events z_idx_ h',
    generate_events 1%positive 3 {[1%positive := [0; 1]; 2%positive := [7]]}
    = Some ((events, z_idx_), h')
    ∧ ({[1%positive := [0; 1]; 2%positive := [7]]} : heap) !! z_idx_ = None
    ∧ ∀ (r : loc) (items : list Z),
        ({[1%positive := [0; 1]; 2%positive := [7]]} : heap) !! r = Some items →
        h' !! r = Some items.
Proof. apply (event_cell_frame _ _ [0; 1]). reflexivity. Defined.

Lemma Qtrunc_comp (x y : Q) : (x == y)%Q → Qtrunc x = Qtrunc y.
Proof.
  intros Hxy. unfold Qtrunc.
  assert (Qle_bool 0 x = Qle_bool 0 y) as ->.
  { destruct (Qle_bool 0 y) eqn:E.
    - apply Qle_bool_iff. apply Qle_bool_iff in E. by rewrite Hxy.
    - apply not_true_is_false. intros E'%Qle_bool_iff.
      rewrite Hxy in E'. apply Qle_bool_iff in E'. congruence. }
  destruct (Qle_bool 0 y); [by apply Qfloor_comp|by apply Qceiling_comp].
Qed.

(** In exact arithmetic the number of z indices does not depend on
    which of [start_end_pos] and [mid_pos] is the larger: swapping them
    gives the same [num_z_positions] (the waveform itself does depend on
    it). *)
Lemma count_z_positions_symmetric (s m st : Q) :
  count_z_positions s m st = count_z_positions m s st.
Proof.
  unfold count_z_positions.
  cbn [of_int fadd fsub fdiv fabs is_zero trunc Q_scalar].
  destruct (Qeq_bool st 0); [done|]. f_equal. apply Qtrunc_comp.
  assert (Qabs (m - s) == Qabs (s - m))%Q as ->; [|reflexivity].
  rewrite <- (Qabs_opp (s - m)). apply Qabs_wd. ring.
Qed.


(** * Runs on binary64 *)

(** ** From floats to the numbers they denote *)

Lemma same_values_inv (fs : list float) (qs : list Q) :
  same_values fs qs = true →
  ∃ vs, values fs = Some vs ∧ Forall2 Qeq vs qs.
Proof.
  revert qs. induction fs as [|f fs IH]; intros [|q qs] Hs; try done.
  - exists []. split; [done|constructor].
  - simpl in Hs. apply andb_prop in Hs as [Hf Hs].
    destruct (IH qs Hs) as (vs & Hvs & Hall).
    unfold same_value in Hf. destruct (F64toQ f) as [q'|] eqn:Ef; [|done].
    apply Qeq_bool_iff in Hf.
    exists (q' :: vs). split; [|by constructor].
    unfold values in *. simpl. rewrite Ef. simpl. by rewrite Hvs.
Qed.

Lemma values_app (fs1 fs2 : list float) (vs1 vs2 : list Q) :
  values fs1 = Some vs1 → values fs2 = Some vs2 →
  values (fs1 ++ fs2) = Some (vs1 ++ vs2).
Proof.
  unfold values. rewrite !mapM_Some. apply Forall2_app.
Qed.

Lemma values_length (fs : list float) (vs : list Q) :
  values fs = Some vs → length fs = length vs.
Proof. apply length_mapM. Qed.

Lemma Forall2_Qeq_lookup (vs qs : list Q) (i : nat) (a : Q) :
  Forall2 Qeq vs qs → vs !! i = Some a →
  ∃ a', qs !! i = Some a' ∧ (a == a')%Q.
Proof. intros Hall Ha. by apply (Forall2_lookup_l _ _ _ _ _ Hall Ha). Qed.





(** ** The offset, in exact arithmetic *)

Lemma shifted_Q_lookup (relative : bool) (qz : Q) (l : list Q) (i : nat)
    (x : Q) :
  shifted relative (idle_core qz) l !! i = Some x →
  ∃ y, l !! i = Some y ∧ (x == y + (if relative then qz else 0))%Q.
Proof.
  unfold shifted. destruct relative; simpl.
  - rewrite list_lookup_fmap. destruct (l !! i) as [y|]; [|done].
    simpl. intros [= <-]. exists y. split; [done|reflexivity].
  - intros Hx. exists x. split; [done|ring].
Qed.




(** What an exact upload gives: the two float runs, the numbers they
    denote once offset, and the exact runs these numbers equal. *)
Lemma exact_upload_inv (s m st : float) (relative : bool) (c : core float)
    (qs qm qst qz : Q) :
  F64toQ s = Some qs → F64toQ m = Some qm → F64toQ st = Some qst →
  F64toQ (stage_position c) = Some qz →
  exact_upload s m st relative (stage_position c) = true →
  ∃ (fu fd : list float) (qu qd vu vd : list Q),
    arange s (fadd m st) st = Some fu
    ∧ arange m (fsub s st) (fopp st) = Some fd
    ∧ arange qs (qm + qst)%Q qst = Some qu
    ∧ arange qm (qs - qst)%Q (- qst)%Q = Some qd
    ∧ values (shifted relative c fu) = Some vu
    ∧ values (shifted relative c fd) = Some vd
    ∧ Forall2 Qeq vu (shifted relative (idle_core qz) qu)
    ∧ Forall2 Qeq vd (shifted relative (idle_core qz) qd).
Proof.
  intros Hs Hm Hst Hz. unfold exact_upload. rewrite Hs, Hm, Hst, Hz.
  destruct (arange s (fadd m st) st) as [fu|]; [|done].
  destruct (arange m (fsub s st) (fopp st)) as [fd|]; [|done].
  destruct (arange qs (qm + qst)%Q qst) as [qu|]; [|done].
  destruct (arange qm (qs - qst)%Q (- qst)%Q) as [qd|]; [|done].
  intros [Hu Hd]%andb_prop.
  apply same_values_inv in Hu as (vu & Hvu & Hau).
  apply same_values_inv in Hd as (vd & Hvd & Had).
  by exists fu, fd, qu, qd, vu, vd.
Qed.


Lemma shifted_app {A : Type} `{Scalar A} (relative : bool) (c : core A)
    (l1 l2 : list A) :
  shifted relative c (l1 ++ l2)
  = shifted relative c l1 ++ shifted relative c l2.
Proof. unfold shifted. destruct relative; [apply fmap_app|done]. Qed.

Lemma triangle_of_runs {A : Type} `{Scalar A} (s m st : A) (up down : list A) :
  arange s (fadd m st) st = Some up →
  arange m (fsub s st) (fopp st) = Some down →
  triangle s m st = Some (up ++ down).
Proof. intros Hup Hdown. unfold triangle. by rewrite Hup, Hdown. Qed.

(** ** The two halves *)






(** ** The z indices and the uploaded positions *)

Lemma exact_count_inv (s m st : float) (qs qm qst : Q) :
  F64toQ s = Some qs → F64toQ m = Some qm → F64toQ st = Some qst →
  exact_count s m st = true →
  ∃ n, count_z_positions s m st = Some n
       ∧ count_z_positions qs qm qst = Some n.
Proof.
  intros Hs Hm Hst. unfold exact_count. rewrite Hs, Hm, Hst.
  destruct (count_z_positions s m st) as [n|]; [|done].
  destruct (count_z_positions qs qm qst) as [n'|]; [|done].
  intros ->%Z.eqb_eq. by exists n'.
Qed.




(** The exactness the theorem asks for holds on the notebook's parameters,
    in both modes. *)
Lemma notebook_parameters_exact :
  exact_count (-2.5)%float 2.5%float 0.25%float = true
  ∧ exact_upload (-2.5)%float 2.5%float 0.25%float true 7%float = true
  ∧ exact_upload (-2.5)%float 2.5%float 0.25%float false 7%float = true.
Proof. repeat split; vm_compute; reflexivity. Qed.


(** ** The uploaded positions as numbers *)

(** The sequence an exact upload returns denotes, place by place, the
    exact sequence plus the offset of the mode. *)
Lemma exact_upload_values (s m st : float) (relative : bool)
    (c : core float) (qs qm qst qz : Q) :
  F64toQ s = Some qs → F64toQ m = Some qm → F64toQ st = Some qst →
  F64toQ (stage_position c) = Some qz →
  exact_upload s m st relative (stage_position c) = true →
  ∃ (seq : list float) (c' : core float) (vs seqQ : list Q),
    upload_piezo_sequence s m st relative c
    = Some ((offset_of relative c, seq), c')
    ∧ values seq = Some vs
    ∧ triangle qs qm qst = Some seqQ
    ∧ length seq = length vs
    ∧ length vs = length seqQ
    ∧ ∀ (i : nat) (a : Q),
        vs !! i = Some a →
        ∃ y, seqQ !! i = Some y
             ∧ (a == y + (if relative then qz else 0))%Q.
Proof.
  intros Hs Hm Hst Hz Hexact.
  destruct (exact_upload_inv s m st relative c qs qm qst qz Hs Hm Hst Hz Hexact)
    as (fu & fd & qu & qd & vu & vd & Hfu & Hfd & Hqu & Hqd & Hvu & Hvd
        & Hau & Had).
  exists (shifted relative c (fu ++ fd)), (uploaded relative c (fu ++ fd)),
    (vu ++ vd), (qu ++ qd).
  assert (Forall2 Qeq (vu ++ vd)
            (shifted relative (idle_core qz) (qu ++ qd))) as Hall.
  { rewrite shifted_app. by apply Forall2_app. }
  assert (values (shifted relative c (fu ++ fd)) = Some (vu ++ vd)) as Hv.
  { rewrite shifted_app. by apply values_app. }
  split.
  { by rewrite upload_piezo_sequence_run, (triangle_of_runs _ _ _ _ _ Hfu Hfd). }
  split; [done|].
  split; [by apply (triangle_of_runs (A:=Q))|].
  split; [by apply values_length|].
  split.
  { apply Forall2_length in Hall. by rewrite length_shifted in Hall. }
  intros i a Ha.
  destruct (Forall2_Qeq_lookup _ _ _ _ Hall Ha) as (a' & Ha' & Haa).
  apply shifted_Q_lookup in Ha' as (y & Hy & Hay).
  exists y. split; [done|]. by rewrite Haa.
Qed.



(** X9: for finite [start_end_pos < mid_pos] and [step_size > 0] on which
    binary64 computes [num_z_positions] and the positions exactly, the
    sequence [upload_piezo_sequence] returns has exactly two positions per
    z index when [step_size] divides [mid_pos - start_end_pos], and two
    positions more than that when it does not: each run then has one
    position more than there are z indices. *)
Theorem uploaded_length_and_z_count (s m st : float) (relative : bool)
    (c : core float) (qs qm qst qz : Q) :
  F64toQ s = Some qs → F64toQ m = Some qm → F64toQ st = Some qst →
  F64toQ (stage_position c) = Some qz →
  (qs < qm)%Q → (0 < qst)%Q →
  exact_count s m st = true →
  exact_upload s m st relative (stage_position c) = true →
  ∃ (n0 : Z) (z_pos : float) (seq : list float) (c' : core float),
    count_z_positions s m st = Some n0
    ∧ upload_piezo_sequence s m st relative c = Some ((z_pos, seq), c')
    ∧ ((∃ k : Z, (qm - qs == inject_Z k * qst)%Q) →
       Z.of_nat (length seq) = 2 * n0)
    ∧ (¬ (∃ k : Z, (qm - qs == inject_Z k * qst)%Q) →
       Z.of_nat (length seq) = 2 * n0 + 2).
Proof.
  intros Hs Hm Hst Hz Hlt Hpos Hcount Hexact.
  destruct (exact_count_inv _ _ _ _ _ _ Hs Hm Hst Hcount) as (n & Hn & HnQ).
  destruct (exact_upload_values s m st relative c qs qm qst qz Hs Hm Hst Hz
              Hexact)
    as (seq & c' & vs & seqQ & Hrun & _ & Htri & Hl1 & Hl2 & _).
  destruct (sequence_length_and_z_count qs qm qst Hlt Hpos)
    as (n' & seqQ' & HnQ' & Htri' & Hdiv & Hndiv).
  rewrite Htri in Htri'. injection Htri' as <-.
  rewrite HnQ in HnQ'. injection HnQ' as <-.
  eexists n, _, seq, c'. split; [done|]. split; [exact Hrun|].
  rewrite Hl1, Hl2. by split.
Qed.

Lemma uploaded_length_and_z_count_witness :
  ∃ (n0 : Z) (z_pos : float) (seq : list float) (c' : core float),
    count_z_positions 0%float 1%float 0.375%float = Some n0
    ∧ upload_piezo_sequence 0%float 1%float 0.375%float false
        (idle_core 7%float)
      = Some ((z_pos, seq), c')
    ∧ ((∃ k : Z, (1 - 0 == inject_Z k * (3#8))%Q) →
       Z.of_nat (length seq) = 2 * n0)
    ∧ (¬ (∃ k : Z, (1 - 0 == inject_Z k * (3#8))%Q) →
       Z.of_nat (length seq) = 2 * n0 + 2).
Proof.
  apply (uploaded_length_and_z_count 0%float 1%float 0.375%float false
           (idle_core 7%float) 0%Q 1%Q (3#8)%Q 7%Q);
    vm_compute; reflexivity.
Defined.

(** With a step of 0.375 from 0 to 1, all exact on binary64, there are 3
    z indices and two runs of 4 positions. *)
Lemma uneven_step_run_f64 :
  count_z_positions 0%float 1%float 0.375%float = Some 3
  ∧ triangle 0%float 1%float 0.375%float
    = Some [0; 0.375; 0.75; 1.125; 1; 0.625; 0.25; -0.125]%float.
Proof. split; vm_compute; reflexivity. Qed.

(** X10: for finite [start_end_pos < mid_pos] and [step_size > 0] with
    [step_size] dividing [mid_pos - start_end_pos], on which binary64
    computes [num_z_positions] and the positions exactly, the events keep
    step with the sequence [upload_piezo_sequence] returns: the position at
    the k-th place of the sequence, counted cyclically, is the position at
    the index the k-th event gives as z. *)
Theorem events_match_uploaded (s m st : float) (relative : bool)
    (c : core float) (qs qm qst qz : Q) (k0 : Z) :
  F64toQ s = Some qs → F64toQ m = Some qm → F64toQ st = Some qst →
  F64toQ (stage_position c) = Some qz →
  (qs < qm)%Q → (0 < qst)%Q →
  (qm - qs == inject_Z k0 * qst)%Q →
  exact_count s m st = true →
  exact_upload s m st relative (stage_position c) = true →
  ∃ (n0 : Z) (z_pos : float) (seq : list float) (c' : core float)
    (vs : list Q),
    count_z_positions s m st = Some n0
    ∧ upload_piezo_sequence s m st relative c = Some ((z_pos, seq), c')
    ∧ values seq = Some vs
    ∧ ∀ (h : heap) (z_idx : loc) (num_time_points : Z),
        h !! z_idx = Some (range n0) →
        ∃ events z_idx_ h',
          generate_events z_idx num_time_points h
          = Some ((events, z_idx_), h')
          ∧ ∀ (k : nat) (e : event),
              events !! k = Some e →
              ∃ a b : Q,
                vs !! (k `mod` length vs)%nat = Some a
                ∧ vs !! Z.to_nat (z e) = Some b
                ∧ (a == b)%Q.
Proof.
  intros Hs Hm Hst Hz Hlt Hpos Hk0 Hcount Hexact.
  destruct (exact_count_inv _ _ _ _ _ _ Hs Hm Hst Hcount) as (n & Hn & HnQ).
  destruct (exact_upload_values s m st relative c qs qm qst qz Hs Hm Hst Hz
              Hexact)
    as (seq & c' & vs & seqQ & Hrun & Hvs & Htri & _ & Hlen & Hat).
  destruct (events_match_positions qs qm qst k0 Hlt Hpos Hk0)
    as (n' & seqQ' & HnQ' & Htri' & Hmatch).
  rewrite Htri in Htri'. injection Htri' as <-.
  rewrite HnQ in HnQ'. injection HnQ' as <-.
  assert (∀ (i : nat) (y : Q), seqQ !! i = Some y →
            ∃ a, vs !! i = Some a
                 ∧ (a == y + (if relative then qz else 0))%Q) as Hback.
  { intros i y Hy.
    destruct (lookup_lt_is_Some_2 vs i) as [a Ha].
    { rewrite Hlen. by apply lookup_lt_Some in Hy. }
    destruct (Hat i a Ha) as (y' & Hy' & Hay).
    exists a. split; [done|]. congruence. }
  eexists n, _, seq, c', vs. split; [done|]. split; [exact Hrun|].
  split; [done|].
  intros h z_idx T Hzi.
  destruct (Hmatch h z_idx T Hzi) as (events & r & h' & Hgen & Hev).
  exists events, r, h'. split; [done|].
  intros k e Hk. destruct (Hev k e Hk) as (y1 & y2 & Hy1 & Hy2 & Hy).
  rewrite <- Hlen in Hy1.
  destruct (Hback _ _ Hy1) as (a & Ha & Haa).
  destruct (Hback _ _ Hy2) as (b & Hb & Hbb).
  exists a, b. split; [done|]. split; [done|]. by rewrite Haa, Hbb, Hy.
Qed.

Lemma events_match_uploaded_witness :
  ∃ (n0 : Z) (z_pos : float) (seq : list float) (c' : core float)
    (vs : list Q),
    count_z_positions (-2.5)%float 2.5%float 0.25%float = Some n0
    ∧ upload_piezo_sequence (-2.5)%float 2.5%float 0.25%float true
        (idle_core 7%float)
      = Some ((z_pos, seq), c')
    ∧ values seq = Some vs
    ∧ ∀ (h : heap) (z_idx : loc) (num_time_points : Z),
        h !! z_idx = Some (range n0) →
        ∃ events z_idx_ h',
          generate_events z_idx num_time_points h
          = Some ((events, z_idx_), h')
          ∧ ∀ (k : nat) (e : event),
              events !! k = Some e →
              ∃ a b : Q,
                vs !! (k `mod` length vs)%nat = Some a
                ∧ vs !! Z.to_nat (z e) = Some b
                ∧ (a == b)%Q.
Proof.
  apply (events_match_uploaded (-2.5)%float 2.5%float 0.25%float true
           (idle_core 7%float) (-5#2)%Q (5#2)%Q (1#4)%Q 7%Q 20);
    vm_compute; reflexivity.
Defined.

(** ** A waveform with no positions, on any arithmetic *)


